(** * BabooSSH credentials registry ([baboossh/creds.py])

    A shallow embedding of the [Creds] class: the [creds] table of the
    workspace database, the live [Creds] instances and the class-level
    cache of the [Unique] metaclass, and the methods [__init__], [get_id],
    [save], [delete], [find_all] and [find_one], written in a small
    state-and-exception monad over the workspace. *)

From Stdlib Require Import ZArith Ascii String List DecimalString DecimalZ DecimalPos.
From stdpp Require Import base gmap strings list fin_maps.

(** ** Python exceptions and results *)

(** The exceptions the modelled code can raise: [NameError] (an unbound
    name is evaluated), [TypeError] (subscripting [None]), and the errors
    raised by collaborators (the extension registry, a codec, a
    [Connection]), which carry their class name. *)
Inductive exn : Type :=
| NameError
| TypeError
| ExtError (name : string).

Inductive result (A : Type) : Type :=
| Ok (a : A)
| Raise (e : exn).
Arguments Ok {A} a.
Arguments Raise {A} e.

Definition is_raise {A : Type} (r : result A) : Prop :=
  match r with Ok _ => False | Raise _ => True end.

(** ** Data *)

(** An [Endpoint], as far as [Creds] reads it: its [id] attribute ([None]
    while unsaved). *)
Record Endpoint : Type := {
  endpoint_id : option Z;
  endpoint_name : string }.

(** The codec object [self.obj]; [Creds] reads its [identifier]. *)
Record AuthObj : Type := { identifier : string }.

(** A [Creds] instance (the attributes set by [__init__]). *)
Record Creds : Type := {
  credsType : string;
  credsContent : string;
  obj : AuthObj;
  id : option Z;
  scope : bool;
  found : option Endpoint }.

Definition with_id (i : option Z) (c : Creds) : Creds :=
  {| credsType := credsType c; credsContent := credsContent c; obj := obj c;
     id := i; scope := scope c; found := found c |}.

(** A row of the [creds] table: columns id, type, content, identifier,
    scope, found. *)
Record Row : Type := {
  row_id : Z;
  row_type : string;
  row_content : string;
  row_identifier : string;
  row_scope : Z;
  row_found : option Z }.

(** Modelled from the spec: the Connection collaborator (baboossh.Connection
    is not part of this file). A connection holds a reference to a
    credential by id. *)
Record Connection : Type := {
  connection_id : Z;
  connection_creds : Z }.

(** The report of a deletion: entity kind to removed identifiers. *)
Abbreviation Report := (gmap string (gset string)).

(** ** SQL statements run on the [creds] table *)

Inductive Statement : Type :=
| SELECT_WHERE_type_identifier (t i : string)
| SELECT_all
| SELECT_WHERE_scope (s : Z)
| SELECT_WHERE_id (i : Z)
| INSERT_INTO_creds (t c i : string) (s : Z) (f : option Z)
| UPDATE_creds_WHERE_id (t c i : string) (s : Z) (f : option Z) (rid : Z)
| DELETE_FROM_creds_WHERE_id (rid : Z).

Definition same_identity (t i : string) (r : Row) : bool :=
  bool_decide (row_type r = t) && bool_decide (row_identifier r = i).

(** The rowid given to an inserted row: one more than the largest in use. *)
Definition next_rowid (tbl : list Row) : Z :=
  (foldr Z.max 0 (row_id <$> tbl) + 1)%Z.

Definition update_row (t c i : string) (s : Z) (f : option Z) (rid : Z) (r : Row) : Row :=
  if bool_decide (row_id r = rid)
  then {| row_id := row_id r; row_type := t; row_content := c;
          row_identifier := i; row_scope := s; row_found := f |}
  else r.

(** [run_statement s tbl] is the table after the statement and its result
    set, in storage order. A statement whose WHERE clause matches no row
    changes nothing and is no error. *)
Definition run_statement (s : Statement) (tbl : list Row) : list Row * list Row :=
  match s with
  | SELECT_WHERE_type_identifier t i => (tbl, filter (λ r, same_identity t i r = true) tbl)
  | SELECT_all => (tbl, tbl)
  | SELECT_WHERE_scope s => (tbl, filter (λ r, row_scope r = s) tbl)
  | SELECT_WHERE_id i => (tbl, filter (λ r, row_id r = i) tbl)
  | INSERT_INTO_creds t c i s f =>
      (tbl ++ [ {| row_id := next_rowid tbl; row_type := t; row_content := c;
                   row_identifier := i; row_scope := s; row_found := f |} ], [])
  | UPDATE_creds_WHERE_id t c i s f rid => (update_row t c i s f rid <$> tbl, [])
  | DELETE_FROM_creds_WHERE_id rid => (filter (λ r, row_id r ≠ rid) tbl, [])
  end.

(** A Python [bool] bound to a SQL parameter. *)
Definition sql_bool (b : bool) : Z := if b then 1%Z else 0%Z.

(** ** The workspace *)

Inductive Event : Type :=
| Execute (s : Statement)
| Commit
| Connection_find_all_called (creds_id : Z)
| Connection_delete_called (c : Connection)
| Obj_delete_called (o : AuthObj).

(** The state the methods run in: the [creds] table, the endpoints and
    connections of the collaborators, the live [Creds] instances by
    address, the cache of the [Unique] metaclass, and the journal of the
    calls made on the database and on the collaborators. *)
Record World : Type := {
  creds_table : list Row;
  endpoints : list Endpoint;
  connections : list Connection;
  heap : gmap nat Creds;
  cache : gmap string nat;
  journal : list Event }.

Definition set_creds_table (tbl : list Row) (w : World) : World :=
  {| creds_table := tbl; endpoints := endpoints w; connections := connections w;
     heap := heap w; cache := cache w; journal := journal w |}.

Definition set_connections (cs : list Connection) (w : World) : World :=
  {| creds_table := creds_table w; endpoints := endpoints w; connections := cs;
     heap := heap w; cache := cache w; journal := journal w |}.

Definition set_heap (h : gmap nat Creds) (w : World) : World :=
  {| creds_table := creds_table w; endpoints := endpoints w; connections := connections w;
     heap := h; cache := cache w; journal := journal w |}.

Definition set_cache (k : gmap string nat) (w : World) : World :=
  {| creds_table := creds_table w; endpoints := endpoints w; connections := connections w;
     heap := heap w; cache := k; journal := journal w |}.

Definition record (e : Event) (w : World) : World :=
  {| creds_table := creds_table w; endpoints := endpoints w; connections := connections w;
     heap := heap w; cache := cache w; journal := journal w ++ [e] |}.

(** ** The monad: state that survives a raised exception *)

Definition M (A : Type) : Type := World → result A * World.

Definition ret {A : Type} (a : A) : M A := λ w, (Ok a, w).
Definition raise {A : Type} (e : exn) : M A := λ w, (Raise e, w).
Definition bind {A B : Type} (m : M A) (k : A → M B) : M B :=
  λ w, match m w with
       | (Ok a, w') => k a w'
       | (Raise e, w') => (Raise e, w')
       end.
Definition lift {A : Type} (r : result A) : M A := λ w, (r, w).
Definition get : M World := λ w, (Ok w, w).
Definition modify (f : World → World) : M unit := λ w, (Ok tt, f w).

Notation "x <-- m ;; k" := (bind m (λ x, k))
  (at level 100, m at next level, right associativity).
Notation "m ;;; k" := (bind m (λ _, k))
  (at level 100, right associativity).

(** [c.execute(stmt)]: the statement runs on the table; the cursor holds
    its result set. *)
Definition execute (s : Statement) : M (list Row) :=
  w <-- get ;;
  modify (record (Execute s)) ;;;
  modify (set_creds_table (fst (run_statement s (creds_table w)))) ;;;
  ret (snd (run_statement s (creds_table w))).

(** [c.fetchone()] *)
Definition fetchone (rows : list Row) : option Row := head rows.

(** [Db.get().commit()] *)
Definition commit : M unit := modify (record Commit).

(** [self] is an address of the heap. Python has no dangling reference;
    an address outside the heap raises here. *)
Definition deref (self : nat) : M Creds :=
  w <-- get ;;
  match heap w !! self with
  | Some c => ret c
  | None => raise (ExtError "ReferenceError")
  end.

Definition store (self : nat) (c : Creds) : M unit :=
  modify (λ w, set_heap (<[self := c]> (heap w)) w).

Definition alloc (c : Creds) : M nat :=
  w <-- get ;;
  modify (set_heap (<[fresh (dom (heap w)) := c]> (heap w))) ;;;
  ret (fresh (dom (heap w))).

(** Modelled from the spec: the Endpoint collaborator's lookup by id
    ([Endpoint.find_one(endpoint_id=...)], baboossh.Endpoint is not part of
    this file): the endpoint with that id, or [None]. *)
Definition Endpoint_find_one (endpoint_id0 : Z) : M (option Endpoint) :=
  w <-- get ;;
  ret (List.find (λ e, bool_decide (endpoint_id e = Some endpoint_id0)) (endpoints w)).

(** Modelled from the spec: [unstore_targets_merge] (baboossh.utils is not
    part of this file) merges a report into the running one by set union
    per kind, not overwrite. *)
Definition unstore_targets_merge (original new_data : Report) : Report :=
  union_with (λ a b, Some (a ∪ b)) original new_data.

(** ** The collaborators outside this file *)

(** [Extensions.getAuthMethod] (the registry of codecs: a key resolves to a
    constructor, which parses a content into a codec object, and either
    can raise), [hashlib.sha256(...).hexdigest()] on the encoded string,
    and the outcome of a [Connection]'s own cascading [delete()] (its
    report, or the exception it raises). *)
Class Externals : Type := {
  getAuthMethod : string → result (string → result AuthObj);
  sha256_hexdigest : string → string;
  Connection_delete : Connection → result Report }.

Section creds.
Context `{Externals}.

(** [Extensions.getAuthMethod(credsType)(credsContent)] *)
Definition new_obj (credsType0 credsContent0 : string) : result AuthObj :=
  match getAuthMethod credsType0 with
  | Ok method => method credsContent0
  | Raise e => Raise e
  end.

(** [Creds.get_id(credsType, credsContent)] *)
Definition get_id (credsType0 credsContent0 : string) : result string :=
  match new_obj credsType0 credsContent0 with
  | Ok o => Ok (sha256_hexdigest (credsType0 +:+ identifier o))
  | Raise e => Raise e
  end.

(** The body of [Creds.__init__]: the instance it initialises. *)
Definition Creds_init (credsType0 credsContent0 : string) : M Creds :=
  o <-- lift (new_obj credsType0 credsContent0) ;;
  rows <-- execute (SELECT_WHERE_type_identifier credsType0 (identifier o)) ;;
  match fetchone rows with
  | Some savedCreds =>
      found0 <-- match row_found savedCreds with
                 | Some e => Endpoint_find_one e
                 | None => ret None
                 end ;;
      ret {| credsType := credsType0; credsContent := credsContent0; obj := o;
             id := Some (row_id savedCreds);
             scope := negb (row_scope savedCreds =? 0)%Z;
             found := found0 |}
  | None =>
      ret {| credsType := credsType0; credsContent := credsContent0; obj := o;
             id := None; scope := true; found := None |}
  end.

(** Modelled from the spec: [Creds(credsType, credsContent)] goes through
    the metaclass [Unique] (baboossh.utils is not part of this file), the
    class-level cache that makes constructions of the same identity yield
    the same object. The cache is keyed by [get_id]; on a miss a new
    instance is initialised by [__init__] and cached. *)
Definition Creds_call (credsType0 credsContent0 : string) : M nat :=
  obj_id <-- lift (get_id credsType0 credsContent0) ;;
  w <-- get ;;
  match cache w !! obj_id with
  | Some self => ret self
  | None =>
      c <-- Creds_init credsType0 credsContent0 ;;
      self <-- alloc c ;;
      modify (λ w', set_cache (<[obj_id := self]> (cache w')) w') ;;;
      ret self
  end.

(** [self.found.id if self.found is not None else None] *)
Definition found_param (c : Creds) : option Z :=
  match found c with
  | Some e => endpoint_id e
  | None => None
  end.

(** [Creds.save] *)
Definition save (self : nat) : M unit :=
  c <-- deref self ;;
  match id c with
  | Some i =>
      execute (UPDATE_creds_WHERE_id (credsType c) (credsContent c) (identifier (obj c))
                 (sql_bool (scope c)) (found_param c) i) ;;;
      commit
  | None =>
      execute (INSERT_INTO_creds (credsType c) (credsContent c) (identifier (obj c))
                 (sql_bool (scope c)) (found_param c)) ;;;
      rows <-- execute (SELECT_WHERE_type_identifier (credsType c) (identifier (obj c))) ;;
      match fetchone rows with
      | Some r => store self (with_id (Some (row_id r)) c)
      | None => raise TypeError
      end ;;;
      commit
  end.

(** Modelled from the spec: [Connection.find_all(creds=self)] enumerates the
    connections whose credential reference equals this credential. *)
Definition Connection_find_all (creds_id : Z) : M (list Connection) :=
  w <-- get ;;
  modify (record (Connection_find_all_called creds_id)) ;;;
  ret (filter (λ c, connection_creds c = creds_id) (connections w)).

(** Modelled from the spec: [connection.delete()], the connection's own
    cascading delete: it removes the connection and returns its report,
    or raises. *)
Definition Connection_delete_call (c : Connection) : M Report :=
  modify (record (Connection_delete_called c)) ;;;
  match Connection_delete c with
  | Ok r =>
      modify (λ w, set_connections
                     (filter (λ c', connection_id c' ≠ connection_id c) (connections w)) w) ;;;
      ret r
  | Raise e => raise e
  end.

(** [self.obj.delete()]: the codec removes its own side-state. *)
Definition obj_delete (o : AuthObj) : M unit :=
  modify (record (Obj_delete_called o)).

(** The loop of [delete]:
    [for connection in ...: unstore_targets_merge(del_data, connection.delete())] *)
Fixpoint delete_connections (del_data : Report) (cs : list Connection) : M Report :=
  match cs with
  | [] => ret del_data
  | connection :: cs' =>
      r <-- Connection_delete_call connection ;;
      delete_connections (unstore_targets_merge del_data r) cs'
  end.

(** [Creds.delete]; the result is [None] where the method returns no value. *)
Definition delete (self : nat) : M (option Report) :=
  c <-- deref self ;;
  match id c with
  | None => ret None
  | Some i =>
      cs <-- Connection_find_all i ;;
      del_data <-- delete_connections ∅ cs ;;
      obj_delete (obj c) ;;;
      execute (DELETE_FROM_creds_WHERE_id i) ;;;
      commit ;;;
      fp <-- lift (get_id (credsType c) (credsContent c)) ;;
      ret (Some (unstore_targets_merge del_data {[ "Creds" := {[ fp ]} ]}))
  end.

(** The loop of [find_all]: [for row in req: ret.append(Creds(row[0], row[1]))] *)
Fixpoint construct_all (rows : list Row) : M (list nat) :=
  match rows with
  | [] => ret []
  | row :: rows' =>
      self <-- Creds_call (row_type row) (row_content row) ;;
      rest <-- construct_all rows' ;;
      ret (self :: rest)
  end.

(** [Creds.find_all(scope=None, found=None)]. In the branches taken when
    [found] is given, the parameter tuple reads the name [endpoint], which
    is bound nowhere (neither a parameter, a local, a module global nor a
    builtin): evaluating it raises [NameError] before the query runs. *)
Definition find_all (scope0 : option bool) (found0 : option Endpoint) : M (list nat) :=
  req <-- match found0 with
          | None =>
              match scope0 with
              | None => execute SELECT_all
              | Some s => execute (SELECT_WHERE_scope (sql_bool s))
              end
          | Some _ => raise NameError
          end ;;
  construct_all req.

(** [Creds.find_one(creds_id)] *)
Definition find_one (creds_id : Z) : M (option nat) :=
  rows <-- execute (SELECT_WHERE_id creds_id) ;;
  match fetchone rows with
  | None => ret None
  | Some row =>
      self <-- Creds_call (row_type row) (row_content row) ;;
      ret (Some self)
  end.

End creds.

(** ** Vocabulary of the properties *)

Section vocabulary.
Context `{Externals}.

(** The connections [Connection.find_all(creds=self)] enumerates. *)
Definition dependents (i : Z) (w : World) : list Connection :=
  filter (λ x, connection_creds x = i) (connections w).

(** The report of a connection's own delete (empty where it raises). *)
Definition report_of (x : Connection) : Report :=
  match Connection_delete x with
  | Ok r => r
  | Raise _ => ∅
  end.

Definition merged (acc : Report) (cs : list Connection) : Report :=
  foldl (λ a x, unstore_targets_merge a (report_of x)) acc cs.

(** [r1] is contained in [r2]: every kind of [r1] is a kind of [r2], with
    at least the same identifiers. *)
Definition report_le (r1 r2 : Report) : Prop :=
  ∀ k ids, r1 !! k = Some ids → ∃ s, r2 !! k = Some s ∧ ids ⊆ s.

Definition is_connection_delete (ev : Event) : bool :=
  match ev with Connection_delete_called _ => true | _ => false end.

Definition is_row_delete (ev : Event) : bool :=
  match ev with Execute (DELETE_FROM_creds_WHERE_id _) => true | _ => false end.

(** No connection delete is journalled after a DELETE on the [creds] table. *)
Fixpoint connections_before_row (evs : list Event) : bool :=
  match evs with
  | [] => true
  | ev :: evs' =>
      if is_row_delete ev then forallb (λ ev', negb (is_connection_delete ev')) evs'
      else connections_before_row evs'
  end.

Definition inserted_row (c : Creds) (tbl : list Row) : Row :=
  {| row_id := next_rowid tbl; row_type := credsType c; row_content := credsContent c;
     row_identifier := identifier (obj c); row_scope := sql_bool (scope c);
     row_found := found_param c |}.

Definition update_of (c : Creds) (i : Z) : Statement :=
  UPDATE_creds_WHERE_id (credsType c) (credsContent c) (identifier (obj c))
    (sql_bool (scope c)) (found_param c) i.

Definition insert_of (c : Creds) : Statement :=
  INSERT_INTO_creds (credsType c) (credsContent c) (identifier (obj c))
    (sql_bool (scope c)) (found_param c).

Definition select_of (c : Creds) : Statement :=
  SELECT_WHERE_type_identifier (credsType c) (identifier (obj c)).

(** The rows of the table with the identity of [c]. *)
Definition rows_of (c : Creds) (tbl : list Row) : list Row :=
  filter (λ r, same_identity (credsType c) (identifier (obj c)) r = true) tbl.

Definition row_identity (r : Row) : string * string := (row_type r, row_identifier r).

Definition identity_of (c : Creds) : string * string := (credsType c, identifier (obj c)).

(** The key under which [Unique] caches an instance. *)
Definition fingerprint (c : Creds) : string :=
  sha256_hexdigest (credsType c +:+ identifier (obj c)).

Definition lookup_endpoint (w : World) (e : Z) : option Endpoint :=
  List.find (λ x, bool_decide (endpoint_id x = Some e)) (endpoints w).

(** The instance [__init__] builds in [w] from a parsed content. *)
Definition initialised (t content : string) (o : AuthObj) (w : World) : Creds :=
  match fetchone (filter (λ r, same_identity t (identifier o) r = true) (creds_table w)) with
  | Some r =>
      {| credsType := t; credsContent := content; obj := o;
         id := Some (row_id r);
         scope := negb (row_scope r =? 0)%Z;
         found := row_found r ≫= lookup_endpoint w |}
  | None =>
      {| credsType := t; credsContent := content; obj := o;
         id := None; scope := true; found := None |}
  end.

Definition constructed (t content : string) (o : AuthObj) (w : World) : World :=
  set_cache (<[sha256_hexdigest (t +:+ identifier o) := fresh (dom (heap w))]> (cache w))
    (set_heap (<[fresh (dom (heap w)) := initialised t content o w]> (heap w))
       (record (Execute (SELECT_WHERE_type_identifier t (identifier o))) w)).

(** In a consistent workspace the rows of the [creds] table have distinct
    ids and distinct (type, identifier) pairs, every live instance is the
    one cached under its fingerprint, a saved instance has the row of its
    id, with its identity, and the identity of an unsaved instance is in
    no row. *)
Record consistent (w : World) : Prop := {
  ids_unique : NoDup (row_id <$> creds_table w);
  identities_unique : NoDup (row_identity <$> creds_table w);
  cached : ∀ a c, heap w !! a = Some c → cache w !! fingerprint c = Some a;
  cache_live : ∀ k a, cache w !! k = Some a → is_Some (heap w !! a);
  saved_row : ∀ a c i, heap w !! a = Some c → id c = Some i →
                ∃ r, r ∈ creds_table w ∧ row_id r = i ∧ row_identity r = identity_of c;
  unsaved_no_row : ∀ a c, heap w !! a = Some c → id c = None →
                     ∀ r, r ∈ creds_table w → row_identity r ≠ identity_of c }.

(** A workspace before any instance exists: a table with distinct ids and
    distinct identities (the empty one, or one left by an earlier
    process), no live instance, an empty cache. *)
Definition initial (w : World) : Prop :=
  heap w = ∅ ∧ cache w = ∅
  ∧ NoDup (row_id <$> creds_table w)
  ∧ NoDup (row_identity <$> creds_table w).

(** One operation of a caller: a construction, a [save], or a query that
    constructs the instances of the rows it finds. Each may raise; the
    workspace it leaves is the next state either way. *)
Inductive step : World → World → Prop :=
| step_construct (t content : string) (w : World) :
    step w (snd (Creds_call t content w))
| step_save (self : nat) (w : World) :
    step w (snd (save self w))
| step_find_all (scope0 : option bool) (found0 : option Endpoint) (w : World) :
    step w (snd (find_all scope0 found0 w))
| step_find_one (creds_id : Z) (w : World) :
    step w (snd (find_one creds_id w)).

End vocabulary.

(** ** The remaining methods of [Creds] *)

(** Python's [str] of an [int]: its decimal digits, after a minus sign
    when negative. *)
Definition str_int (z : Z) : string := NilZero.string_of_int (Z.to_int z).

(** [Creds.__str__]: ["#"+str(self.id)]; [str(None)] is ["None"]. *)
Definition Creds_str (c : Creds) : string :=
  "#" +:+ match id c with
          | Some i => str_int i
          | None => "None"
          end.

Definition with_obj (o : AuthObj) (content : string) (c : Creds) : Creds :=
  {| credsType := credsType c; credsContent := content; obj := o;
     id := id c; scope := scope c; found := found c |}.

Section creds_edit.
Context `{Externals}.

(** What the codec does in [edit]: [obj_edit o] is the codec object after
    [self.obj.edit()] (an interactive edit, outside this file) together
    with what [self.obj.serialize()] then returns, or the exception the
    edit raises. *)
Variable obj_edit : AuthObj → result (AuthObj * string).

(** [Creds.edit] *)
Definition edit (self : nat) : M unit :=
  c <-- deref self ;;
  edited <-- lift (obj_edit (obj c)) ;;
  store self (with_obj (fst edited) (snd edited) c) ;;;
  save self.

End creds_edit.

Section vocabulary_more.
Context `{Externals}.

(** The codec object of the instance is the one its (type, content) parse
    to, as after [__init__]. *)
Definition parsed (c : Creds) : Prop :=
  new_obj (credsType c) (credsContent c) = Ok (obj c).

(** The instance [__init__] builds from the row [r] when [r] is the row
    it fetches. *)
Definition loaded (r : Row) (o : AuthObj) (w : World) : Creds :=
  {| credsType := row_type r; credsContent := row_content r; obj := o;
     id := Some (row_id r);
     scope := negb (row_scope r =? 0)%Z;
     found := row_found r ≫= lookup_endpoint w |}.

(** The row [save] writes for an instance loaded from [r]. *)
Definition resaved (r : Row) (w : World) : Row :=
  {| row_id := row_id r; row_type := row_type r; row_content := row_content r;
     row_identifier := row_identifier r;
     row_scope := sql_bool (negb (row_scope r =? 0)%Z);
     row_found := (row_found r ≫= lookup_endpoint w) ≫= endpoint_id |}.

(** The rows the query of [find_all] selects when no discovery endpoint is
    given. *)
Definition selected (scope0 : option bool) (tbl : list Row) : list Row :=
  match scope0 with
  | None => tbl
  | Some s => filter (λ r, row_scope r = sql_bool s) tbl
  end.

(** The content of the row parses, and [a] is the instance cached under
    the fingerprint of what it parses to. *)
Definition instance_of_row (w : World) (a : nat) (r : Row) : Prop :=
  ∃ o, new_obj (row_type r) (row_content r) = Ok o
       ∧ cache w !! sha256_hexdigest (row_type r +:+ identifier o) = Some a.

End vocabulary_more.

(** ** A concrete registry, used to run the methods on examples *)

Module Demo.

(** A password codec: the identity is the user name before the colon. *)
Fixpoint before_colon (s : string) : string :=
  match s with
  | EmptyString => EmptyString
  | String a s' => if Ascii.eqb a ":"%char then EmptyString else String a (before_colon s')
  end.

Definition password (content : string) : result AuthObj :=
  Ok {| identifier := before_colon content |}.

(** Connection 13 cannot be deleted; the others report their own id. *)
Definition externals : Externals := {|
  getAuthMethod := λ key,
    if String.eqb key "password" then Ok password else Raise (ExtError "KeyError");
  sha256_hexdigest := λ s, "sha256:" +:+ s;
  Connection_delete := λ c,
    if (connection_id c =? 13)%Z then Raise (ExtError "OSError")
    else Ok {[ "Connection" := {[ String.string_of_list_ascii
                                   (List.repeat "c"%char (Z.to_nat (connection_id c))) ]} ]} |}.

Definition empty_world : World := {|
  creds_table := []; endpoints := []; connections := [];
  heap := ∅; cache := ∅; journal := [] |}.

Definition user_pass : Creds := {|
  credsType := "password"; credsContent := "user:pass";
  obj := {| identifier := "user" |}; id := None; scope := true; found := None |}.

Definition saved_creds : Creds := with_id (Some 1%Z) user_pass.

Definition user_row : Row := {|
  row_id := 1; row_type := "password"; row_content := "user:pass";
  row_identifier := "user"; row_scope := 1; row_found := None |}.

(** [user_pass] constructed, not saved. *)
Definition unsaved_world : World := {|
  creds_table := []; endpoints := []; connections := [];
  heap := {[ 0%nat := user_pass ]}; cache := {[ "sha256:passworduser" := 0%nat ]};
  journal := [] |}.

(** [saved_creds] with its row and two connections that use it. *)
Definition saved_world : World := {|
  creds_table := [user_row]; endpoints := [];
  connections := [ {| connection_id := 2; connection_creds := 1 |};
                   {| connection_id := 3; connection_creds := 1 |};
                   {| connection_id := 4; connection_creds := 9 |} ];
  heap := {[ 0%nat := saved_creds ]}; cache := {[ "sha256:passworduser" := 0%nat ]};
  journal := [] |}.

(** As [saved_world], with a second connection that cannot be deleted. *)
Definition failing_world : World :=
  set_connections [ {| connection_id := 2; connection_creds := 1 |};
                    {| connection_id := 13; connection_creds := 1 |};
                    {| connection_id := 3; connection_creds := 1 |} ] saved_world.

(** An instance whose [id] is 7 while the table has no row. *)
Definition stale_world : World := {|
  creds_table := []; endpoints := []; connections := [];
  heap := {[ 0%nat := with_id (Some 7%Z) user_pass ]};
  cache := {[ "sha256:passworduser" := 0%nat ]};
  journal := [] |}.

(** A registry with two kinds, "pass" and "password", both parsed by the
    password codec. *)
Definition two_kinds : Externals := {|
  getAuthMethod := λ key,
    if String.eqb key "password" || String.eqb key "pass" then Ok password
    else Raise (ExtError "KeyError");
  sha256_hexdigest := λ s, "sha256:" +:+ s;
  Connection_delete := λ c, Ok ∅ |}.

(** The table of [saved_world] in a fresh process. *)
Definition stored_world : World := {|
  creds_table := [user_row]; endpoints := []; connections := [];
  heap := ∅; cache := ∅; journal := [] |}.

(** A second row, of another user and out of scope, found on an endpoint
    that is not stored. *)
Definition root_row : Row := {|
  row_id := 2; row_type := "password"; row_content := "root:toor";
  row_identifier := "root"; row_scope := 0; row_found := Some 5%Z |}.

Definition two_rows_world : World := {|
  creds_table := [user_row; root_row]; endpoints := []; connections := [];
  heap := {[ 0%nat := saved_creds ]}; cache := {[ "sha256:passworduser" := 0%nat ]};
  journal := [] |}.

(** A row whose content no registered codec parses. *)
Definition odd_row : Row := {|
  row_id := 3; row_type := "kerberos"; row_content := "ticket";
  row_identifier := "ticket"; row_scope := 1; row_found := None |}.

Definition odd_rows_world : World := {|
  creds_table := [user_row; odd_row; root_row]; endpoints := []; connections := [];
  heap := ∅; cache := ∅; journal := [] |}.

(** An unsaved instance while a row of its identity is stored already. *)
Definition shadowed_world : World := {|
  creds_table := [user_row]; endpoints := []; connections := [];
  heap := {[ 0%nat := user_pass ]}; cache := {[ "sha256:passworduser" := 0%nat ]};
  journal := [] |}.

(** Both rows in a fresh process. *)
Definition stored_two_rows_world : World := {|
  creds_table := [user_row; root_row]; endpoints := []; connections := [];
  heap := ∅; cache := ∅; journal := [] |}.

(** A saved instance of a kind the registry does not know (any more). *)
Definition odd_creds : Creds := {|
  credsType := "kerberos"; credsContent := "ticket";
  obj := {| identifier := "ticket" |}; id := Some 3%Z; scope := true; found := None |}.

Definition odd_world : World := {|
  creds_table := [odd_row]; endpoints := []; connections := [];
  heap := {[ 0%nat := odd_creds ]}; cache := ∅; journal := [] |}.

(** An edit that renames the user to root and changes the password. *)
Definition rename_to_root (o : AuthObj) : result (AuthObj * string) :=
  Ok ({| identifier := "root" |}, "root:hunter2").

End Demo.

(** * Properties *)

Section properties.
Context `{Externals}.

Ltac run := unfold bind, ret, raise, lift, get, modify; simpl.

(** ** [get_id] *)

(** C5. The fingerprint is the sha256 digest of the method kind followed by
    the identity the codec derives from the content; it reads and changes
    nothing of the workspace, and two contents of one kind with the same
    identity have the same fingerprint. *)
Theorem get_id_is_digest_of_identity (t c c' : string) (o o' : AuthObj) :
  new_obj t c = Ok o →
  new_obj t c' = Ok o' →
  identifier o = identifier o' →
  get_id t c = Ok (sha256_hexdigest (t +:+ identifier o))
  ∧ get_id t c' = get_id t c
  ∧ ∀ w, lift (get_id t c) w = (Ok (sha256_hexdigest (t +:+ identifier o)), w).
Proof.
  intros Ho Ho' Hid. unfold lift, get_id. rewrite Ho, Ho', Hid. auto.
Qed.

(** ** [delete] on an instance that was never saved *)

(** C4, as the code has it. [delete] on an instance whose [id] is [None]
    leaves the whole workspace as it was (no enumeration of connections,
    no statement, no commit in the journal) and returns [None], not a
    report. *)
Theorem delete_unsaved_returns_None (w : World) (self : nat) (c : Creds) :
  heap w !! self = Some c →
  id c = None →
  delete self w = (Ok None, w).
Proof.
  intros Hc Hid. unfold delete, deref. run. rewrite Hc. simpl. rewrite Hid. reflexivity.
Qed.

(** ** [save] *)

Lemma update_row_no_match t c i s f rid (tbl : list Row) :
  Forall (λ r, row_id r ≠ rid) tbl →
  update_row t c i s f rid <$> tbl = tbl.
Proof.
  induction 1 as [|r tbl Hr _ IH]; [done|].
  rewrite fmap_cons, IH. unfold update_row. rewrite bool_decide_eq_false_2 by done. done.
Qed.

(** C6, as the code has it. When no row has the instance's [id], the
    update path of [save] raises nothing: it runs the UPDATE, which
    matches no row, commits, and leaves the table and the instance as
    they were. *)
Theorem save_update_missing_row_is_silent (w : World) (self : nat) (c : Creds) (i : Z) :
  heap w !! self = Some c →
  id c = Some i →
  Forall (λ r, row_id r ≠ i) (creds_table w) →
  ∃ w', save self w = (Ok tt, w')
        ∧ creds_table w' = creds_table w
        ∧ heap w' = heap w
        ∧ journal w' = journal w ++
            [Execute (UPDATE_creds_WHERE_id (credsType c) (credsContent c)
                        (identifier (obj c)) (sql_bool (scope c)) (found_param c) i);
             Commit].
Proof.
  intros Hc Hid Hno. eexists. unfold save, deref, execute, commit. run.
  rewrite Hc. simpl. rewrite Hid. simpl.
  split; [reflexivity|]. simpl.
  rewrite update_row_no_match by done.
  split_and!; [done..|]. by rewrite <- app_assoc.
Qed.

(** ** [find_all] *)

(** C7, the failing path. Whenever a discovery endpoint is given,
    [find_all] raises [NameError] and runs no query at all. *)
Theorem find_all_found_raises_NameError (scope0 : option bool) (e : Endpoint) (w : World) :
  find_all scope0 (Some e) w = (Raise NameError, w).
Proof. reflexivity. Qed.

(** Without a discovery endpoint, [find_all] constructs the instances of
    the rows whose scope column is the flag given, in storage order (of
    all the rows when no flag is given). *)
Lemma find_all_scope_only (s : bool) (w : World) :
  find_all (Some s) None w
  = construct_all (filter (λ r, row_scope r = sql_bool s) (creds_table w))
      (record (Execute (SELECT_WHERE_scope (sql_bool s))) w).
Proof. destruct w. reflexivity. Qed.

Lemma find_all_unfiltered (w : World) :
  find_all None None w = construct_all (creds_table w) (record (Execute SELECT_all) w).
Proof. destruct w. reflexivity. Qed.

(** ** [delete] on a saved instance *)

Lemma filter_all {A : Type} (P : A → Prop) `{!∀ x, Decision (P x)} (l : list A) :
  Forall P l → filter P l = l.
Proof.
  induction 1 as [|x l Hx _ IH]; [done|].
  rewrite filter_cons_True by done. by rewrite IH.
Qed.

Lemma filter_none {A : Type} (P : A → Prop) `{!∀ x, Decision (P x)} (l : list A) :
  Forall (λ x, ¬ P x) l → filter P l = [].
Proof.
  induction 1 as [|x l Hx _ IH]; [done|].
  by rewrite filter_cons_False.
Qed.

Lemma report_le_refl (r : Report) : report_le r r.
Proof. intros k ids Hk. eauto. Qed.

Lemma report_le_trans (r1 r2 r3 : Report) :
  report_le r1 r2 → report_le r2 r3 → report_le r1 r3.
Proof.
  intros H12 H23 k ids Hk.
  destruct (H12 _ _ Hk) as (s & Hs & Hsub).
  destruct (H23 _ _ Hs) as (s' & Hs' & Hsub').
  exists s'. split; [done|]. set_solver.
Qed.

Lemma merge_le_l (a b : Report) : report_le a (unstore_targets_merge a b).
Proof.
  intros k ids Hk. unfold unstore_targets_merge.
  rewrite lookup_union_with, Hk.
  destruct (b !! k) as [ids'|]; simpl; eexists; (split; [reflexivity|set_solver]).
Qed.

Lemma merge_le_r (a b : Report) : report_le b (unstore_targets_merge a b).
Proof.
  intros k ids Hk. unfold unstore_targets_merge.
  rewrite lookup_union_with, Hk.
  destruct (a !! k) as [ids'|]; simpl; eexists; (split; [reflexivity|set_solver]).
Qed.

Lemma merged_le_acc (cs : list Connection) (acc : Report) :
  report_le acc (merged acc cs).
Proof.
  revert acc. induction cs as [|x cs IH]; intros acc; simpl.
  - apply report_le_refl.
  - eapply report_le_trans; [apply merge_le_l|apply IH].
Qed.

Lemma merged_le_each (cs : list Connection) (acc : Report) (x : Connection) :
  x ∈ cs → report_le (report_of x) (merged acc cs).
Proof.
  revert acc. induction cs as [|y cs IH]; intros acc Hx.
  - by apply elem_of_nil in Hx.
  - apply elem_of_cons in Hx as [->|Hx]; simpl.
    + eapply report_le_trans; [apply merge_le_r|apply merged_le_acc].
    + by apply IH.
Qed.

(** The loop over connections none of which raises. *)
Lemma delete_connections_all_ok (cs : list Connection) (acc : Report) (w : World) :
  Forall (λ x, ¬ is_raise (Connection_delete x)) cs →
  ∃ w', delete_connections acc cs w = (Ok (merged acc cs), w')
        ∧ creds_table w' = creds_table w
        ∧ endpoints w' = endpoints w
        ∧ heap w' = heap w
        ∧ cache w' = cache w
        ∧ journal w' = journal w ++ (Connection_delete_called <$> cs)
        ∧ connections w' =
            filter (λ x, connection_id x ∉ connection_id <$> cs) (connections w).
Proof.
  intros Hok. revert acc w.
  induction Hok as [|x cs Hx _ IH]; intros acc w.
  - exists w. simpl. unfold ret. rewrite app_nil_r.
    split_and!; try done.
    symmetry. apply filter_all, Forall_forall. intros y _. apply not_elem_of_nil.
  - simpl. unfold Connection_delete_call, report_of. run.
    destruct (Connection_delete x) as [r|e] eqn:Hr; [|by destruct Hx].
    simpl.
    edestruct (IH (unstore_targets_merge acc r)) as (w' & Hrun & Ht & He & Hh & Hc & Hj & Hcs).
    exists w'. split; [apply Hrun|]. simpl in *.
    split_and!; try done.
    + rewrite Hj. by rewrite <- app_assoc.
    + rewrite Hcs, list_filter_filter. apply list_filter_iff.
      intros y. rewrite not_elem_of_cons. tauto.
Qed.

(** The loop stops at the first connection whose delete raises. *)
Lemma delete_connections_raises (pre post : list Connection) (bad : Connection) (e : exn)
    (acc : Report) (w : World) :
  Forall (λ x, ¬ is_raise (Connection_delete x)) pre →
  Connection_delete bad = Raise e →
  ∃ w', delete_connections acc (pre ++ bad :: post) w = (Raise e, w')
        ∧ creds_table w' = creds_table w
        ∧ heap w' = heap w
        ∧ cache w' = cache w
        ∧ journal w' = journal w ++ (Connection_delete_called <$> pre ++ [bad]).
Proof.
  intros Hok Hbad. revert acc w.
  induction Hok as [|x pre Hx _ IH]; intros acc w.
  - simpl. unfold Connection_delete_call. run. rewrite Hbad. simpl.
    eexists. split; [reflexivity|]. done.
  - simpl. unfold Connection_delete_call. run.
    destruct (Connection_delete x) as [r|e'] eqn:Hr; [|by destruct Hx].
    simpl.
    edestruct (IH (unstore_targets_merge acc r)) as (w' & Hrun & Ht & Hh & Hc & Hj).
    exists w'. split; [apply Hrun|]. simpl in *.
    split_and!; try done.
    rewrite Hj. by rewrite <- app_assoc.
Qed.

(** Whatever the outcome, the loop journals only connection deletes and
    leaves the [creds] table and the instances alone. *)
Lemma delete_connections_journal (cs : list Connection) (acc : Report) (w : World) :
  ∃ called, journal (snd (delete_connections acc cs w))
              = journal w ++ (Connection_delete_called <$> called)
            ∧ creds_table (snd (delete_connections acc cs w)) = creds_table w
            ∧ heap (snd (delete_connections acc cs w)) = heap w.
Proof.
  revert acc w. induction cs as [|x cs IH]; intros acc w.
  - exists []. simpl. by rewrite app_nil_r.
  - simpl. unfold Connection_delete_call. run.
    destruct (Connection_delete x) as [r|e]; simpl.
    + edestruct (IH (unstore_targets_merge acc r)) as (called & Hj & Ht & Hh).
      exists (x :: called). rewrite Hj, Ht, Hh. simpl.
      by rewrite <- app_assoc.
    + exists [x]. done.
Qed.

Lemma connections_before_row_app (called : list Connection) (rest : list Event) :
  connections_before_row ((Connection_delete_called <$> called) ++ rest)
  = connections_before_row rest.
Proof. induction called as [|x called IH]; [done|]. apply IH. Qed.

(** C9. On a saved instance, the journal of a [delete] never shows a
    connection delete after the DELETE of the credential's row; and when
    the delete of a dependent connection raises, [delete] raises that same
    exception, having journalled only the enumeration and the connection
    deletes up to the failing one: the codec's delete, the DELETE of the
    row and the commit are not reached, and the table keeps its rows. *)
Theorem delete_aborts_on_connection_failure (w : World) (self : nat) (c : Creds) (i : Z) :
  heap w !! self = Some c →
  id c = Some i →
  (∃ evs, journal (snd (delete self w)) = journal w ++ evs
          ∧ connections_before_row evs = true)
  ∧ ∀ pre bad post e,
      dependents i w = pre ++ bad :: post →
      Forall (λ x, ¬ is_raise (Connection_delete x)) pre →
      Connection_delete bad = Raise e →
      ∃ w', delete self w = (Raise e, w')
            ∧ creds_table w' = creds_table w
            ∧ heap w' = heap w
            ∧ journal w' = journal w ++
                Connection_find_all_called i :: (Connection_delete_called <$> pre ++ [bad]).
Proof.
  intros Hc Hid. split.
  - unfold delete, deref, Connection_find_all. run. rewrite Hc. simpl. rewrite Hid. simpl.
    fold (dependents i w).
    set (w0 := record (Connection_find_all_called i) w).
    destruct (delete_connections_journal (dependents i w) ∅ w0) as (called & Hj & _ & _).
    destruct (delete_connections ∅ (dependents i w) w0) as [[r|e] w1]; simpl in *.
    + unfold obj_delete, execute, commit. run.
      destruct (get_id (credsType c) (credsContent c)); simpl;
        rewrite Hj; rewrite <- !app_assoc;
        (eexists; split; [reflexivity|]);
        simpl; by rewrite connections_before_row_app.
    + rewrite Hj. rewrite <- !app_assoc.
      eexists; split; [reflexivity|].
      simpl. rewrite <- (app_nil_r (_ <$> called)). by rewrite connections_before_row_app.
  - intros pre bad post e Hdeps Hok Hbad.
    unfold delete, deref, Connection_find_all. run. rewrite Hc. simpl. rewrite Hid. simpl.
    fold (dependents i w). rewrite Hdeps.
    set (w0 := record (Connection_find_all_called i) w).
    destruct (delete_connections_raises pre post bad e ∅ w0 Hok Hbad)
      as (w' & Hrun & Ht & Hh & _ & Hj).
    rewrite Hrun. exists w'. split_and!; try done.
    rewrite Hj. simpl. by rewrite <- app_assoc.
Qed.

(** The whole of [delete] when no dependent connection raises. *)
Lemma delete_saved_run (w : World) (self : nat) (c : Creds) (i : Z) (fp : string) :
  heap w !! self = Some c →
  id c = Some i →
  get_id (credsType c) (credsContent c) = Ok fp →
  Forall (λ x, ¬ is_raise (Connection_delete x)) (dependents i w) →
  ∃ w', delete self w
          = (Ok (Some (unstore_targets_merge (merged ∅ (dependents i w))
                         {[ "Creds" := {[ fp ]} ]})), w')
        ∧ creds_table w' = filter (λ r, row_id r ≠ i) (creds_table w)
        ∧ connections w' =
            filter (λ x, connection_id x ∉ connection_id <$> dependents i w) (connections w)
        ∧ heap w' = heap w
        ∧ cache w' = cache w
        ∧ journal w' = journal w ++
            Connection_find_all_called i :: (Connection_delete_called <$> dependents i w) ++
            [Obj_delete_called (obj c); Execute (DELETE_FROM_creds_WHERE_id i); Commit].
Proof.
  intros Hc Hid Hfp Hok.
  unfold delete, deref, Connection_find_all. run. rewrite Hc. simpl. rewrite Hid. simpl.
  fold (dependents i w).
  set (w0 := record (Connection_find_all_called i) w).
  destruct (delete_connections_all_ok (dependents i w) ∅ w0 Hok)
    as (w1 & Hrun & Ht & _ & Hh & Hk & Hj & Hcs).
  rewrite Hrun. unfold obj_delete, execute, commit. run. rewrite Hfp. simpl.
  eexists. split; [reflexivity|]. simpl.
  rewrite Ht, Hcs, Hh, Hk, Hj. simpl.
  split_and!; try done.
  by rewrite <- !app_assoc.
Qed.

Lemma dependents_removed (i : Z) (cs : list Connection) :
  Forall (λ x, connection_creds x ≠ i)
    (filter (λ x, connection_id x ∉ connection_id <$> filter (λ y, connection_creds y = i) cs) cs).
Proof.
  apply Forall_forall. intros x Hx Hi.
  apply list_elem_of_filter in Hx as [Hnot Hin].
  apply Hnot, list_elem_of_fmap. exists x. split; [done|].
  by apply list_elem_of_filter.
Qed.

(** C3. [delete] on a saved instance, none of whose dependent connections
    raises on its own delete: every dependent connection is deleted
    through its own [delete] (one call each, in order) and none is left,
    then the codec's delete runs, the row is deleted, the change is
    committed, and the report returned contains every connection's report
    and the credential's fingerprint under the kind "Creds". *)
Theorem delete_cascades_and_reports (w : World) (self : nat) (c : Creds) (i : Z) (fp : string) :
  heap w !! self = Some c →
  id c = Some i →
  get_id (credsType c) (credsContent c) = Ok fp →
  Forall (λ x, ¬ is_raise (Connection_delete x)) (dependents i w) →
  ∃ report w',
    delete self w = (Ok (Some report), w')
    ∧ dependents i w' = []
    ∧ Forall (λ x, x ∈ connections w) (connections w')
    ∧ creds_table w' = filter (λ r, row_id r ≠ i) (creds_table w)
    ∧ Forall (λ r, row_id r ≠ i) (creds_table w')
    ∧ journal w' = journal w ++
        Connection_find_all_called i :: (Connection_delete_called <$> dependents i w) ++
        [Obj_delete_called (obj c); Execute (DELETE_FROM_creds_WHERE_id i); Commit]
    ∧ report = unstore_targets_merge (merged ∅ (dependents i w)) {[ "Creds" := {[ fp ]} ]}
    ∧ (∃ s, report !! "Creds" = Some s ∧ fp ∈ s)
    ∧ (∀ x, x ∈ dependents i w → report_le (report_of x) report).
Proof.
  intros Hc Hid Hfp Hok.
  destruct (delete_saved_run w self c i fp Hc Hid Hfp Hok)
    as (w' & Hrun & Ht & Hcs & _ & _ & Hj).
  eexists _, w'. split; [apply Hrun|].
  split_and!; try done.
  - unfold dependents. rewrite Hcs. apply filter_none, dependents_removed.
  - rewrite Hcs. apply Forall_forall. intros x Hx.
    by apply list_elem_of_filter in Hx as [_ Hx].
  - rewrite Ht. apply Forall_forall. intros r Hr.
    by apply list_elem_of_filter in Hr as [Hr _].
  - destruct (merge_le_r (merged ∅ (dependents i w)) {[ "Creds" := {[ fp ]} ]}
                "Creds" {[ fp ]}) as (s & Hs & Hsub).
    + apply lookup_singleton_eq.
    + exists s. split; [done|]. set_solver.
  - intros x Hx. eapply report_le_trans; [by apply merged_le_each|apply merge_le_l].
Qed.

(** C10. A successful [delete] leaves the instance as it was, its [id]
    still set; a second [delete] on it therefore runs the cascade path
    again: it enumerates no connection, its DELETE matches no row and
    raises nothing, and its report is again the fingerprint under the
    kind "Creds". *)
Theorem delete_twice_reports_again (w : World) (self : nat) (c : Creds) (i : Z) (fp : string) :
  heap w !! self = Some c →
  id c = Some i →
  get_id (credsType c) (credsContent c) = Ok fp →
  Forall (λ x, ¬ is_raise (Connection_delete x)) (dependents i w) →
  ∃ report w1 w2,
    delete self w = (Ok (Some report), w1)
    ∧ heap w1 !! self = Some c
    ∧ Forall (λ r, row_id r ≠ i) (creds_table w1)
    ∧ delete self w1 = (Ok (Some {[ "Creds" := {[ fp ]} ]}), w2)
    ∧ creds_table w2 = creds_table w1
    ∧ heap w2 !! self = Some c
    ∧ journal w2 = journal w1 ++
        [Connection_find_all_called i; Obj_delete_called (obj c);
         Execute (DELETE_FROM_creds_WHERE_id i); Commit].
Proof.
  intros Hc Hid Hfp Hok.
  destruct (delete_saved_run w self c i fp Hc Hid Hfp Hok)
    as (w1 & Hrun1 & Ht1 & Hcs1 & Hh1 & _ & _).
  assert (Hdeps : dependents i w1 = []).
  { unfold dependents. rewrite Hcs1. apply filter_none, dependents_removed. }
  assert (Hc1 : heap w1 !! self = Some c) by by rewrite Hh1.
  assert (Hrows : Forall (λ r, row_id r ≠ i) (creds_table w1)).
  { rewrite Ht1. apply Forall_forall. intros r Hr.
    by apply list_elem_of_filter in Hr as [Hr _]. }
  destruct (delete_saved_run w1 self c i fp Hc1 Hid Hfp) as (w2 & Hrun2 & Ht2 & _ & Hh2 & _ & Hj2).
  { rewrite Hdeps. constructor. }
  rewrite Hdeps in Hrun2, Hj2. simpl in Hrun2, Hj2.
  unfold unstore_targets_merge in Hrun2. rewrite (left_id ∅ _) in Hrun2.
  eexists _, w1, w2. split; [apply Hrun1|].
  split_and!; try done.
  - rewrite Ht2. by apply filter_all.
  - by rewrite Hh2.
Qed.

(** ** [save], step by step *)

Lemma same_identity_true (t i : string) (r : Row) :
  same_identity t i r = true ↔ row_type r = t ∧ row_identifier r = i.
Proof.
  unfold same_identity. rewrite andb_true_iff, !bool_decide_eq_true. done.
Qed.

Lemma save_update_run (w : World) (self : nat) (c : Creds) (i : Z) :
  heap w !! self = Some c →
  id c = Some i →
  save self w =
    (Ok tt,
     record Commit
       (set_creds_table
          (update_row (credsType c) (credsContent c) (identifier (obj c))
             (sql_bool (scope c)) (found_param c) i <$> creds_table w)
          (record (Execute (update_of c i)) w))).
Proof.
  intros Hc Hid. unfold save, deref, execute, commit. run.
  rewrite Hc. simpl. rewrite Hid. reflexivity.
Qed.

Lemma rows_of_inserted (c : Creds) (tbl : list Row) :
  rows_of c (tbl ++ [inserted_row c tbl]) = rows_of c tbl ++ [inserted_row c tbl].
Proof.
  unfold rows_of. rewrite filter_app. f_equal.
  rewrite filter_cons_True; [done|].
  by apply same_identity_true.
Qed.

Lemma head_snoc_is_Some {A : Type} (l : list A) (x : A) : is_Some (head (l ++ [x])).
Proof. destruct l; simpl; eauto. Qed.

Lemma save_insert_run (w : World) (self : nat) (c : Creds) :
  heap w !! self = Some c →
  id c = None →
  ∃ r, fetchone (rows_of c (creds_table w) ++ [inserted_row c (creds_table w)]) = Some r
       ∧ save self w =
           (Ok tt,
            record Commit
              (set_heap (<[self := with_id (Some (row_id r)) c]> (heap w))
                 (record (Execute (select_of c))
                    (set_creds_table (creds_table w ++ [inserted_row c (creds_table w)])
                       (record (Execute (insert_of c)) w))))).
Proof.
  intros Hc Hid.
  destruct (head_snoc_is_Some (rows_of c (creds_table w)) (inserted_row c (creds_table w)))
    as [r Hr].
  exists r. split; [done|].
  unfold save, deref, execute, commit, store. run.
  rewrite Hc. simpl. rewrite Hid. simpl.
  fold (inserted_row c (creds_table w)).
  fold (rows_of c (creds_table w ++ [inserted_row c (creds_table w)])).
  rewrite rows_of_inserted. unfold fetchone in Hr. unfold fetchone. rewrite Hr. reflexivity.
Qed.

Lemma update_row_id t c i s f rid (r : Row) :
  row_id (update_row t c i s f rid r) = row_id r.
Proof. unfold update_row. by case_bool_decide. Qed.

Lemma update_row_idemp t c i s f rid (tbl : list Row) :
  update_row t c i s f rid <$> (update_row t c i s f rid <$> tbl)
  = update_row t c i s f rid <$> tbl.
Proof.
  rewrite <- list_fmap_compose. apply list_fmap_ext. intros _ r _. simpl.
  unfold update_row at 2. case_bool_decide as Hr.
  - unfold update_row. simpl. by rewrite bool_decide_eq_true_2.
  - unfold update_row. by rewrite bool_decide_eq_false_2.
Qed.

Lemma next_rowid_fresh (tbl : list Row) :
  Forall (λ r, (row_id r < next_rowid tbl)%Z) tbl.
Proof.
  unfold next_rowid. induction tbl as [|r tbl IH]; [constructor|].
  rewrite fmap_cons. simpl. constructor; [lia|].
  eapply Forall_impl; [apply IH|]. simpl. intros; lia.
Qed.

Lemma update_row_ids t c i s f rid (tbl : list Row) :
  row_id <$> (update_row t c i s f rid <$> tbl) = row_id <$> tbl.
Proof.
  rewrite <- list_fmap_compose. apply list_fmap_ext. intros _ r _. simpl.
  apply update_row_id.
Qed.

(** C8. [save] always succeeds on a live instance and leaves it with an
    [id]: on an unsaved instance it appends one row and takes the [id] of
    the first row of its identity; on a saved one it keeps the [id]. A
    second [save] right after is an UPDATE followed by a commit: the
    instance, its [id], the number of rows and their ids stay the same,
    and the table itself stays the same when the first save was an update
    or when no row of that identity existed before the insert. *)
Theorem save_twice_keeps_id_and_rows (w : World) (self : nat) (c : Creds) :
  heap w !! self = Some c →
  ∃ w1 w2 c1 i,
    save self w = (Ok tt, w1)
    ∧ heap w1 !! self = Some c1
    ∧ id c1 = Some i
    ∧ (id c = None →
         creds_table w1 = creds_table w ++ [inserted_row c (creds_table w)]
         ∧ Some i = row_id <$> fetchone (rows_of c (creds_table w1)))
    ∧ (id c ≠ None → c1 = c ∧ length (creds_table w1) = length (creds_table w))
    ∧ save self w1 = (Ok tt, w2)
    ∧ heap w2 = heap w1
    ∧ journal w2 = journal w1 ++ [Execute (update_of c1 i); Commit]
    ∧ length (creds_table w2) = length (creds_table w1)
    ∧ row_id <$> creds_table w2 = row_id <$> creds_table w1
    ∧ (id c ≠ None ∨ rows_of c (creds_table w) = [] → creds_table w2 = creds_table w1).
Proof.
  intros Hc. destruct (id c) as [i0|] eqn:Hid.
  - pose proof (save_update_run w self c i0 Hc Hid) as Hrun1.
    set (w1 := record Commit _) in Hrun1.
    assert (Hc1 : heap w1 !! self = Some c) by done.
    pose proof (save_update_run w1 self c i0 Hc1 Hid) as Hrun2.
    eexists w1, _, c, i0. split; [apply Hrun1|].
    split_and!; try done.
    + intros _. split; [done|]. subst w1; simpl. by rewrite length_fmap.
    + simpl. by rewrite <- app_assoc.
    + simpl. by rewrite !length_fmap.
    + simpl. by rewrite update_row_ids.
    + intros _. subst w1; simpl. apply update_row_idemp.
  - destruct (save_insert_run w self c Hc Hid) as (r & Hr & Hrun1).
    set (w1 := record Commit _) in Hrun1.
    set (c1 := with_id (Some (row_id r)) c).
    assert (Hc1 : heap w1 !! self = Some c1) by (subst w1; simpl; apply lookup_insert_eq).
    pose proof (save_update_run w1 self c1 (row_id r) Hc1 eq_refl) as Hrun2.
    eexists w1, _, c1, (row_id r). split; [apply Hrun1|].
    split_and!; try done.
    + intros _. split; [done|]. subst w1; simpl.
      rewrite rows_of_inserted. by rewrite Hr.
    + simpl. by rewrite <- app_assoc.
    + simpl. by rewrite !length_fmap.
    + simpl. by rewrite update_row_ids.
    + intros [?|Hnone]; [done|]. simpl.
      rewrite Hnone in Hr. simpl in Hr. injection Hr as <-.
      rewrite fmap_app. f_equal.
      * apply update_row_no_match.
        eapply Forall_impl; [apply next_rowid_fresh|]. simpl. intros; lia.
      * simpl. unfold update_row. by rewrite bool_decide_eq_true_2.
Qed.

(** ** The constructor, step by step *)

Lemma Creds_init_run (t content : string) (o : AuthObj) (w : World) :
  new_obj t content = Ok o →
  Creds_init t content w
  = (Ok (initialised t content o w),
     record (Execute (SELECT_WHERE_type_identifier t (identifier o))) w).
Proof.
  intros Ho. unfold Creds_init, initialised, execute, Endpoint_find_one. run.
  rewrite Ho. simpl.
  destruct (fetchone _) as [r|]; [|done].
  by destruct (row_found r).
Qed.

Lemma initialised_identity (t content : string) (o : AuthObj) (w : World) :
  credsType (initialised t content o w) = t ∧ obj (initialised t content o w) = o.
Proof. unfold initialised. by destruct (fetchone _). Qed.

Lemma Creds_call_run (t content : string) (o : AuthObj) (w : World) :
  new_obj t content = Ok o →
  Creds_call t content w
  = match cache w !! sha256_hexdigest (t +:+ identifier o) with
    | Some self => (Ok self, w)
    | None => (Ok (fresh (dom (heap w))), constructed t content o w)
    end.
Proof.
  intros Ho. unfold Creds_call, get_id. run. rewrite Ho. simpl.
  destruct (cache w !! _) as [self|] eqn:Hk; [done|].
  pose proof (Creds_init_run t content o w Ho) as Hinit.
  unfold bind in Hinit |- *. rewrite Hinit. unfold alloc. run. reflexivity.
Qed.

Lemma Creds_call_raises (t content : string) (e : exn) (w : World) :
  new_obj t content = Raise e →
  Creds_call t content w = (Raise e, w).
Proof. intros Ho. unfold Creds_call, get_id. run. by rewrite Ho. Qed.

(** ** The invariant of the registry *)

Lemma row_identity_same (t i : string) (r : Row) :
  same_identity t i r = true ↔ row_identity r = (t, i).
Proof.
  rewrite same_identity_true. unfold row_identity. split.
  - by intros [-> ->].
  - intros [= -> ->]. done.
Qed.

Lemma consistent_journal (ev : Event) (w : World) : consistent w → consistent (record ev w).
Proof. intros [? ? ? ? ? ?]. by constructor. Qed.

Lemma constructed_consistent (t content : string) (o : AuthObj) (w : World) :
  cache w !! sha256_hexdigest (t +:+ identifier o) = None →
  consistent w →
  consistent (constructed t content o w).
Proof.
  intros Hmiss [Hids Hidents Hcached Hlive Hsaved Hunsaved].
  pose proof (initialised_identity t content o w) as [Ht Ho].
  assert (Hfresh : heap w !! fresh (dom (heap w)) = None).
  { apply not_elem_of_dom, is_fresh. }
  constructor; simpl; try done.
  - intros a c Hc. destruct (decide (a = fresh (dom (heap w)))) as [->|Hne].
    + rewrite lookup_insert_eq in Hc. injection Hc as <-.
      unfold fingerprint. rewrite Ht, Ho. apply lookup_insert_eq.
    + rewrite lookup_insert_ne in Hc by done.
      rewrite lookup_insert_ne; [by apply Hcached|].
      intros Heq. apply Hcached in Hc. rewrite <- Heq in Hc. congruence.
  - intros k a Hk. apply lookup_insert_is_Some.
    destruct (decide (fresh (dom (heap w)) = a)) as [|Hne]; [by left|right].
    split; [done|]. apply (Hlive k).
    destruct (decide (sha256_hexdigest (t +:+ identifier o) = k)) as [<-|Hk'].
    + rewrite lookup_insert_eq in Hk. congruence.
    + by rewrite lookup_insert_ne in Hk.
  - intros a c i Hc Hi. destruct (decide (a = fresh (dom (heap w)))) as [->|Hne].
    + rewrite lookup_insert_eq in Hc. injection Hc as <-.
      unfold identity_of. rewrite Ht, Ho.
      unfold initialised in Hi.
      destruct (fetchone _) as [r|] eqn:Hr; [|done]. simpl in Hi. injection Hi as <-.
      apply head_Some_elem_of, list_elem_of_filter in Hr as [Hsame Hin].
      exists r. split_and!; [done..|]. by apply row_identity_same.
    + rewrite lookup_insert_ne in Hc by done. by eapply Hsaved.
  - intros a c Hc Hi. destruct (decide (a = fresh (dom (heap w)))) as [->|Hne].
    + rewrite lookup_insert_eq in Hc. injection Hc as <-.
      unfold identity_of. rewrite Ht, Ho.
      unfold initialised in Hi.
      destruct (fetchone _) as [r|] eqn:Hr; [done|].
      apply head_None in Hr. intros r Hin Hsame.
      eapply filter_nil_not_elem_of; [apply Hr| |apply Hin].
      by apply row_identity_same.
    + rewrite lookup_insert_ne in Hc by done. by eapply Hunsaved.
Qed.

Lemma Creds_call_consistent (t content : string) (w : World) :
  consistent w → consistent (snd (Creds_call t content w)).
Proof.
  intros Hw. destruct (new_obj t content) as [o|e] eqn:Ho.
  - rewrite (Creds_call_run t content o w Ho).
    destruct (cache w !! _) eqn:Hk; [done|].
    by apply constructed_consistent.
  - by rewrite (Creds_call_raises t content e w Ho).
Qed.

Lemma NoDup_fmap_inj_on {A B : Type} (f : A → B) (l : list A) (x y : A) :
  NoDup (f <$> l) → x ∈ l → y ∈ l → f x = f y → x = y.
Proof.
  induction l as [|z l IH]; intros Hnd Hx Hy Hf.
  - by apply elem_of_nil in Hx.
  - rewrite fmap_cons in Hnd. apply NoDup_cons in Hnd as [Hz Hnd].
    apply elem_of_cons in Hx as [->|Hx]; apply elem_of_cons in Hy as [->|Hy]; try done.
    + exfalso. apply Hz. rewrite Hf. by apply list_elem_of_fmap_2.
    + exfalso. apply Hz. rewrite <- Hf. by apply list_elem_of_fmap_2.
    + by apply IH.
Qed.

(** An UPDATE through a saved instance of a consistent workspace rewrites
    the row of its id and keeps the identity of every row. *)
Lemma update_row_identity (w : World) (a : nat) (c : Creds) (i : Z) (r : Row) :
  consistent w →
  heap w !! a = Some c →
  id c = Some i →
  r ∈ creds_table w →
  row_identity
    (update_row (credsType c) (credsContent c) (identifier (obj c))
       (sql_bool (scope c)) (found_param c) i r) = row_identity r.
Proof.
  intros Hw Hc Hi Hr. unfold update_row. case_bool_decide as Hid; [|done].
  destruct (saved_row w Hw a c i Hc Hi) as (r0 & Hr0 & Hid0 & Hident0).
  assert (r = r0) as ->.
  { eapply NoDup_fmap_inj_on; [apply (ids_unique w Hw)|done..|congruence]. }
  by rewrite Hident0.
Qed.

Lemma save_update_consistent (w : World) (a : nat) (c : Creds) (i : Z) :
  consistent w →
  heap w !! a = Some c →
  id c = Some i →
  consistent
    (set_creds_table
       (update_row (credsType c) (credsContent c) (identifier (obj c))
          (sql_bool (scope c)) (found_param c) i <$> creds_table w) w).
Proof.
  intros Hw Hc Hi.
  pose proof (λ r, update_row_identity w a c i r Hw Hc Hi) as Hident.
  destruct Hw as [Hids Hidents Hcached Hlive Hsaved Hunsaved].
  constructor; simpl; try done.
  - by rewrite update_row_ids.
  - rewrite <- list_fmap_compose.
    erewrite list_fmap_ext; [apply Hidents|].
    intros k r Hk. simpl. apply Hident. by eapply list_elem_of_lookup_2.
  - intros a' c' i' Hc' Hi'.
    destruct (Hsaved a' c' i' Hc' Hi') as (r & Hr & Hid & Hident').
    eexists. split_and!.
    + by apply list_elem_of_fmap_2.
    + by rewrite update_row_id.
    + by rewrite Hident.
  - intros a' c' Hc' Hi' r' Hr'.
    apply list_elem_of_fmap in Hr' as (r & -> & Hr).
    rewrite Hident by done. by eapply Hunsaved.
Qed.

Lemma identity_of_with_id (i : option Z) (c : Creds) :
  identity_of (with_id i c) = identity_of c.
Proof. done. Qed.

Lemma save_insert_consistent (w : World) (a : nat) (c : Creds) :
  consistent w →
  heap w !! a = Some c →
  id c = None →
  consistent
    (set_heap (<[a := with_id (Some (next_rowid (creds_table w))) c]> (heap w))
       (set_creds_table (creds_table w ++ [inserted_row c (creds_table w)]) w)).
Proof.
  intros [Hids Hidents Hcached Hlive Hsaved Hunsaved] Hc Hi.
  constructor; simpl.
  - rewrite fmap_app. apply NoDup_app. split_and!; [done| |apply NoDup_singleton].
    intros x Hx Hnew. apply list_elem_of_fmap in Hx as (r & -> & Hr).
    simpl in Hnew. apply list_elem_of_singleton in Hnew.
    pose proof (next_rowid_fresh (creds_table w)) as Hfresh.
    rewrite Forall_forall in Hfresh. specialize (Hfresh r Hr). lia.
  - rewrite fmap_app. apply NoDup_app. split_and!; [done| |apply NoDup_singleton].
    intros x Hx Hnew. apply list_elem_of_fmap in Hx as (r & -> & Hr).
    simpl in Hnew. apply list_elem_of_singleton in Hnew.
    by apply (Hunsaved a c Hc Hi r Hr).
  - intros a' c' Hc'. destruct (decide (a' = a)) as [->|Hne].
    + rewrite lookup_insert_eq in Hc'. injection Hc' as <-. exact (Hcached a c Hc).
    + rewrite lookup_insert_ne in Hc' by done. by apply Hcached.
  - intros k a' Hk. apply lookup_insert_is_Some'. right. by eapply Hlive.
  - intros a' c' i' Hc' Hi'. destruct (decide (a' = a)) as [->|Hne].
    + rewrite lookup_insert_eq in Hc'. injection Hc' as <-. simpl in Hi'. injection Hi' as <-.
      exists (inserted_row c (creds_table w)). split_and!; [|done..].
      apply elem_of_app. right. apply list_elem_of_singleton. done.
    + rewrite lookup_insert_ne in Hc' by done.
      destruct (Hsaved a' c' i' Hc' Hi') as (r & Hr & Hid & Hident).
      exists r. split_and!; [|done..]. apply elem_of_app. by left.
  - intros a' c' Hc' Hi'. destruct (decide (a' = a)) as [->|Hne].
    + rewrite lookup_insert_eq in Hc'. injection Hc' as <-. done.
    + rewrite lookup_insert_ne in Hc' by done.
      intros r Hr. apply elem_of_app in Hr as [Hr|Hr]; [by eapply Hunsaved|].
      apply list_elem_of_singleton in Hr as ->.
      intros Hsame. apply Hne.
      pose proof (Hcached a' c' Hc') as Hk'. pose proof (Hcached a c Hc) as Hk.
      unfold fingerprint in Hk, Hk'. unfold row_identity, identity_of in Hsame.
      simpl in Hsame. injection Hsame as Ht Hident. rewrite <- Ht, <- Hident in Hk'.
      congruence.
Qed.

(** In a consistent workspace the row an unsaved instance fetches back
    after its INSERT is the row just inserted. *)
Lemma rows_of_unsaved (w : World) (a : nat) (c : Creds) :
  consistent w →
  heap w !! a = Some c →
  id c = None →
  rows_of c (creds_table w) = [].
Proof.
  intros Hw Hc Hi. apply filter_none, Forall_forall. intros r Hr Hsame.
  apply row_identity_same in Hsame. by apply (unsaved_no_row w Hw a c Hc Hi r Hr).
Qed.

Lemma consistent_same (w w' : World) :
  creds_table w' = creds_table w →
  heap w' = heap w →
  cache w' = cache w →
  consistent w → consistent w'.
Proof.
  intros Ht Hh Hk [? ? ? ? ? ?]. constructor; rewrite ?Ht, ?Hh, ?Hk; done.
Qed.

Lemma save_consistent (self : nat) (w : World) :
  consistent w → consistent (snd (save self w)).
Proof.
  intros Hw. destruct (heap w !! self) as [c|] eqn:Hc.
  - destruct (id c) as [i|] eqn:Hi.
    + rewrite (save_update_run w self c i Hc Hi). simpl.
      eapply consistent_same; [..|apply (save_update_consistent w self c i Hw Hc Hi)]; done.
    + destruct (save_insert_run w self c Hc Hi) as (r & Hr & ->). simpl.
      rewrite (rows_of_unsaved w self c Hw Hc Hi) in Hr. simpl in Hr. injection Hr as <-.
      eapply consistent_same; [..|apply (save_insert_consistent w self c Hw Hc Hi)]; done.
  - unfold save, deref. run. by rewrite Hc.
Qed.

Lemma execute_select_consistent (s : Statement) (w : World) :
  fst (run_statement s (creds_table w)) = creds_table w →
  consistent w → consistent (snd (execute s w)).
Proof.
  intros Hsame Hw. unfold execute. run.
  eapply consistent_same; [..|apply Hw]; done.
Qed.

Lemma construct_all_consistent (rows : list Row) (w : World) :
  consistent w → consistent (snd (construct_all rows w)).
Proof.
  revert w. induction rows as [|row rows IH]; intros w Hw; [done|].
  simpl. unfold bind.
  pose proof (Creds_call_consistent (row_type row) (row_content row) w Hw) as Hw1.
  destruct (Creds_call (row_type row) (row_content row) w) as [[self|e] w1]; [|done].
  specialize (IH w1 Hw1). simpl in Hw1.
  by destruct (construct_all rows w1) as [[rest|e] w2].
Qed.

Lemma find_all_consistent (scope0 : option bool) (found0 : option Endpoint) (w : World) :
  consistent w → consistent (snd (find_all scope0 found0 w)).
Proof.
  intros Hw. destruct found0 as [e|]; [done|].
  unfold find_all, bind.
  destruct scope0 as [s|].
  - pose proof (execute_select_consistent (SELECT_WHERE_scope (sql_bool s)) w eq_refl Hw) as Hw1.
    destruct (execute _ w) as [[rows|e] w1]; [|done].
    by apply construct_all_consistent.
  - pose proof (execute_select_consistent SELECT_all w eq_refl Hw) as Hw1.
    destruct (execute _ w) as [[rows|e] w1]; [|done].
    by apply construct_all_consistent.
Qed.

Lemma find_one_consistent (creds_id : Z) (w : World) :
  consistent w → consistent (snd (find_one creds_id w)).
Proof.
  intros Hw. unfold find_one, bind.
  pose proof (execute_select_consistent (SELECT_WHERE_id creds_id) w eq_refl Hw) as Hw1.
  destruct (execute _ w) as [[rows|e] w1]; [|done].
  destruct (fetchone rows) as [row|]; [|done].
  pose proof (Creds_call_consistent (row_type row) (row_content row) w1 Hw1) as Hw2.
  by destruct (Creds_call (row_type row) (row_content row) w1) as [[self|e] w2].
Qed.

(** ** Reachable workspaces *)

Lemma initial_consistent (w : World) : initial w → consistent w.
Proof.
  intros (Hh & Hk & Hids & Hidents).
  constructor; try done; intros *; rewrite ?Hh, ?Hk, ?lookup_empty; done.
Qed.

Lemma step_consistent (w w' : World) : step w w' → consistent w → consistent w'.
Proof.
  destruct 1; intros Hw.
  - by apply Creds_call_consistent.
  - by apply save_consistent.
  - by apply find_all_consistent.
  - by apply find_one_consistent.
Qed.

Lemma reachable_consistent (w0 w : World) : initial w0 → rtc step w0 w → consistent w.
Proof.
  intros Hinit Hsteps. apply initial_consistent in Hinit.
  induction Hsteps as [|w0 w1 w Hstep _ IH]; [done|].
  apply IH. by eapply step_consistent.
Qed.

(** C2. In every workspace reached by constructions, saves and queries
    from an initial one, the (type, identifier) pairs of the rows of the
    [creds] table are pairwise distinct: two rows with the same type and
    identifier are the same row. *)
Theorem identities_stay_unique (w0 w : World) :
  initial w0 →
  rtc step w0 w →
  NoDup (row_identity <$> creds_table w)
  ∧ ∀ j k r1 r2,
      creds_table w !! j = Some r1 →
      creds_table w !! k = Some r2 →
      row_type r1 = row_type r2 →
      row_identifier r1 = row_identifier r2 →
      j = k.
Proof.
  intros Hinit Hsteps.
  pose proof (identities_unique w (reachable_consistent w0 w Hinit Hsteps)) as Hnd.
  split; [done|].
  intros j k r1 r2 Hj Hk Ht Hi.
  eapply NoDup_lookup; [apply Hnd|..].
  - rewrite list_lookup_fmap, Hj. reflexivity.
  - rewrite list_lookup_fmap, Hk. simpl. unfold row_identity. by rewrite Ht, Hi.
Qed.

(** ** Constructing again after a save *)

Lemma unique_row (t i : string) (tbl : list Row) (r : Row) :
  NoDup (row_identity <$> tbl) →
  r ∈ tbl →
  row_identity r = (t, i) →
  filter (λ x, same_identity t i x = true) tbl = [r].
Proof.
  induction tbl as [|x tbl IH]; intros Hnd Hr Hident.
  - by apply elem_of_nil in Hr.
  - rewrite fmap_cons in Hnd. apply NoDup_cons in Hnd as [Hx Hnd].
    apply elem_of_cons in Hr as [<-|Hr].
    + rewrite filter_cons_True by by apply row_identity_same.
      f_equal. apply filter_none, Forall_forall. intros y Hy Hsame.
      apply row_identity_same in Hsame. apply Hx.
      rewrite Hident, <- Hsame. by apply list_elem_of_fmap_2.
    + rewrite filter_cons_False; [by apply IH|].
      intros Hsame. apply row_identity_same in Hsame. apply Hx.
      rewrite Hsame, <- Hident. by apply list_elem_of_fmap_2.
Qed.

(** What [save] leaves in a consistent workspace: the instance has an
    [id], and the row of that id carries its identity, scope and
    discovery endpoint. *)
Lemma save_writes_row (w : World) (self : nat) (c : Creds) :
  consistent w →
  heap w !! self = Some c →
  ∃ w' i r,
    save self w = (Ok tt, w')
    ∧ heap w' !! self = Some (with_id (Some i) c)
    ∧ cache w' = cache w
    ∧ endpoints w' = endpoints w
    ∧ r ∈ creds_table w'
    ∧ row_id r = i
    ∧ row_identity r = identity_of c
    ∧ row_scope r = sql_bool (scope c)
    ∧ row_found r = found_param c.
Proof.
  intros Hw Hc. destruct (id c) as [i|] eqn:Hi.
  - destruct (saved_row w Hw self c i Hc Hi) as (r0 & Hr0 & Hid0 & Hident0).
    eexists _, i, _. split; [apply (save_update_run w self c i Hc Hi)|]. simpl.
    split_and!.
    + rewrite Hc. f_equal. destruct c; simpl in *. by rewrite Hi.
    + done.
    + done.
    + apply list_elem_of_fmap_2, Hr0.
    + by rewrite update_row_id.
    + unfold update_row. by rewrite bool_decide_eq_true_2.
    + unfold update_row. by rewrite bool_decide_eq_true_2.
    + unfold update_row. by rewrite bool_decide_eq_true_2.
  - destruct (save_insert_run w self c Hc Hi) as (r & Hr & Hrun).
    rewrite (rows_of_unsaved w self c Hw Hc Hi) in Hr. simpl in Hr. injection Hr as <-.
    eexists _, _, (inserted_row c (creds_table w)). split; [apply Hrun|]. simpl.
    split_and!; try done.
    + apply lookup_insert_eq.
    + apply elem_of_app. right. by apply list_elem_of_singleton.
Qed.

Lemma scope_round_trip (b : bool) : negb (sql_bool b =? 0)%Z = b.
Proof. by destruct b. Qed.

(** C1. In a consistent workspace, construct a credential and save it.
    The instance then has an [id]; constructing again from the same
    (type, content) changes nothing and yields that same instance; the
    table still has distinct identities, with exactly one row of this
    instance's identity, which carries the instance's [id], scope and
    discovery endpoint; and [__init__] run again on the same (type,
    content) reads that row back: same [id], same scope, and the endpoint
    the stored reference resolves to. *)
Theorem construct_again_after_save (w w1 : World) (t content : string) (self : nat) :
  consistent w →
  Creds_call t content w = (Ok self, w1) →
  ∃ w2 c1 i r o,
    save self w1 = (Ok tt, w2)
    ∧ heap w2 !! self = Some c1
    ∧ id c1 = Some i
    ∧ Creds_call t content w2 = (Ok self, w2)
    ∧ NoDup (row_identity <$> creds_table w2)
    ∧ rows_of c1 (creds_table w2) = [r]
    ∧ row_id r = i
    ∧ row_scope r = sql_bool (scope c1)
    ∧ row_found r = found_param c1
    ∧ new_obj t content = Ok o
    ∧ (cache w !! sha256_hexdigest (t +:+ identifier o) = None
       ∨ identity_of c1 = (t, identifier o) →
       ∃ c2 w3,
         Creds_init t content w2 = (Ok c2, w3)
         ∧ creds_table w3 = creds_table w2
         ∧ id c2 = id c1
         ∧ scope c2 = scope c1
         ∧ found c2 = found_param c1 ≫= lookup_endpoint w2).
Proof.
  intros Hw Hcall.
  pose proof (Creds_call_consistent t content w Hw) as Hw1. rewrite Hcall in Hw1. simpl in Hw1.
  destruct (new_obj t content) as [o|e] eqn:Ho;
    [|rewrite (Creds_call_raises t content e w Ho) in Hcall; done].
  rewrite (Creds_call_run t content o w Ho) in Hcall.
  set (fp := sha256_hexdigest (t +:+ identifier o)) in *.
  assert (∃ c0, heap w1 !! self = Some c0 ∧ cache w1 !! fp = Some self
                ∧ (cache w !! fp = None → identity_of c0 = (t, identifier o)))
    as (c0 & Hc0 & Hk1 & Hmiss).
  { destruct (cache w !! fp) as [a|] eqn:Hk.
    - injection Hcall as <- <-.
      destruct (cache_live w Hw fp a Hk) as [c0 Hc0]. exists c0. done.
    - injection Hcall as <- <-. eexists. simpl. rewrite !lookup_insert_eq.
      split_and!; [done..|]. intros _.
      destruct (initialised_identity t content o w) as [Ht Hobj].
      unfold identity_of. by rewrite Ht, Hobj. }
  destruct (save_writes_row w1 self c0 Hw1 Hc0)
    as (w2 & i & r & Hsave & Hc1 & Hk2 & He2 & Hr & Hid & Hident & Hscope & Hfound).
  pose proof (save_consistent self w1 Hw1) as Hw2. rewrite Hsave in Hw2. simpl in Hw2.
  assert (Hrows : rows_of (with_id (Some i) c0) (creds_table w2) = [r]).
  { apply unique_row; [apply (identities_unique w2 Hw2)|done..]. }
  exists w2, (with_id (Some i) c0), i, r, o.
  split_and!; try done.
  - rewrite (Creds_call_run t content o w2 Ho). fold fp. by rewrite Hk2, Hk1.
  - apply (identities_unique w2 Hw2).
  - intros Hsame.
    assert (Hident0 : identity_of c0 = (t, identifier o)) by (destruct Hsame; auto).
    eexists _, _. split; [apply (Creds_init_run t content o w2 Ho)|].
    split; [done|].
    unfold initialised.
    unfold rows_of in Hrows. simpl in Hrows.
    unfold identity_of in Hident0. injection Hident0 as Ht0 Hi0.
    rewrite Ht0, Hi0 in Hrows. rewrite Hrows. simpl.
    rewrite Hid, Hscope, Hfound, scope_round_trip. done.
Qed.

End properties.

(** * Further properties of the methods *)

Section more_properties.
Context `{Externals}.

Ltac run := unfold bind, ret, raise, lift, get, modify; simpl.

(** ** [find_one] *)

Lemma unique_row_by_id (tbl : list Row) (r : Row) :
  NoDup (row_id <$> tbl) →
  r ∈ tbl →
  filter (λ x, row_id x = row_id r) tbl = [r].
Proof.
  induction tbl as [|x tbl IH]; intros Hnd Hr.
  - by apply elem_of_nil in Hr.
  - rewrite fmap_cons in Hnd. apply NoDup_cons in Hnd as [Hx Hnd].
    apply elem_of_cons in Hr as [<-|Hr].
    + rewrite filter_cons_True by done. f_equal.
      apply filter_none, Forall_forall. intros y Hy Hsame.
      apply Hx. rewrite <- Hsame. by apply list_elem_of_fmap_2.
    + rewrite filter_cons_False; [by apply IH|].
      intros Hsame. apply Hx. rewrite Hsame. by apply list_elem_of_fmap_2.
Qed.

(** [find_one] on an id no row has returns [None] after its one SELECT:
    no instance is constructed and nothing else of the workspace changes. *)
Theorem find_one_missing_id (creds_id : Z) (w : World) :
  Forall (λ r, row_id r ≠ creds_id) (creds_table w) →
  find_one creds_id w = (Ok None, record (Execute (SELECT_WHERE_id creds_id)) w).
Proof.
  intros Hno. unfold find_one, execute. run.
  rewrite filter_none by done. simpl. by destruct w.
Qed.

(** [find_one] in a process that has no instance of the row's fingerprint
    yet: when the row of that id parses to its own identifier column, the
    result is a new instance carrying the row's id, type and content, its
    scope read as "not 0", and the endpoint its found column resolves to;
    the table is left as it was. *)
Theorem find_one_loads_row (w : World) (r : Row) (o : AuthObj) :
  consistent w →
  r ∈ creds_table w →
  new_obj (row_type r) (row_content r) = Ok o →
  identifier o = row_identifier r →
  cache w !! sha256_hexdigest (row_type r +:+ identifier o) = None →
  ∃ self w',
    find_one (row_id r) w = (Ok (Some self), w')
    ∧ heap w !! self = None
    ∧ heap w' !! self = Some (loaded r o w)
    ∧ cache w' !! sha256_hexdigest (row_type r +:+ identifier o) = Some self
    ∧ creds_table w' = creds_table w.
Proof.
  intros Hw Hr Ho Hident Hmiss.
  unfold find_one, execute. run.
  rewrite (unique_row_by_id (creds_table w) r (ids_unique w Hw) Hr). simpl.
  set (w0 := set_creds_table _ _).
  pose proof (Creds_call_run (row_type r) (row_content r) o w0 Ho) as Hcall.
  change (cache w0) with (cache w) in Hcall. rewrite Hmiss in Hcall.
  unfold bind. rewrite Hcall.
  eexists _, _. split; [reflexivity|]. simpl.
  split_and!.
  - apply not_elem_of_dom, is_fresh.
  - rewrite lookup_insert_eq. f_equal. unfold initialised, loaded. simpl.
    rewrite (unique_row (row_type r) (identifier o) (creds_table w) r
               (identities_unique w Hw) Hr) by (by rewrite Hident).
    done.
  - apply lookup_insert_eq.
  - done.
Qed.

Lemma save_writes_content (w : World) (self : nat) (c : Creds) :
  consistent w →
  heap w !! self = Some c →
  ∃ w' i r,
    save self w = (Ok tt, w')
    ∧ heap w' !! self = Some (with_id (Some i) c)
    ∧ cache w' = cache w
    ∧ r ∈ creds_table w'
    ∧ row_id r = i
    ∧ row_type r = credsType c
    ∧ row_content r = credsContent c.
Proof.
  intros Hw Hc. destruct (id c) as [i|] eqn:Hi.
  - destruct (saved_row w Hw self c i Hc Hi) as (r0 & Hr0 & Hid0 & Hident0).
    eexists _, i, _. split; [apply (save_update_run w self c i Hc Hi)|]. simpl.
    split_and!.
    + rewrite Hc. f_equal. destruct c; simpl in *. by rewrite Hi.
    + done.
    + apply list_elem_of_fmap_2, Hr0.
    + by rewrite update_row_id.
    + unfold update_row. by rewrite bool_decide_eq_true_2.
    + unfold update_row. by rewrite bool_decide_eq_true_2.
  - destruct (save_insert_run w self c Hc Hi) as (r & Hr & Hrun).
    rewrite (rows_of_unsaved w self c Hw Hc Hi) in Hr. simpl in Hr. injection Hr as <-.
    eexists _, _, (inserted_row c (creds_table w)). split; [apply Hrun|]. simpl.
    split_and!; try done.
    + apply lookup_insert_eq.
    + apply elem_of_app. right. by apply list_elem_of_singleton.
Qed.

(** Insert then look up. In a consistent workspace, after [save] of an
    instance whose codec object is the one its content parses to,
    [find_one] on the instance's id returns that very instance: it runs
    its SELECT, finds the instance in the cache, and constructs nothing. *)
Theorem save_then_find_one_same_instance (w : World) (self : nat) (c : Creds) :
  consistent w →
  heap w !! self = Some c →
  parsed c →
  ∃ w1 i,
    save self w = (Ok tt, w1)
    ∧ heap w1 !! self = Some (with_id (Some i) c)
    ∧ find_one i w1 = (Ok (Some self), record (Execute (SELECT_WHERE_id i)) w1).
Proof.
  intros Hw Hc Hparsed.
  destruct (save_writes_content w self c Hw Hc)
    as (w1 & i & r & Hsave & Hc1 & Hk & Hr & Hid & Ht & Hcontent).
  pose proof (save_consistent self w Hw) as Hw1. rewrite Hsave in Hw1. simpl in Hw1.
  exists w1, i. split_and!; [done..|].
  unfold find_one, execute. run. subst i.
  rewrite (unique_row_by_id (creds_table w1) r (ids_unique w1 Hw1) Hr). simpl.
  set (w0 := set_creds_table _ _).
  unfold parsed in Hparsed. rewrite <- Ht, <- Hcontent in Hparsed.
  pose proof (Creds_call_run (row_type r) (row_content r) (obj c) w0 Hparsed) as Hcall.
  change (cache w0) with (cache w1) in Hcall.
  pose proof (cached w1 Hw1 self _ Hc1) as Hcached. unfold fingerprint in Hcached.
  simpl in Hcached. rewrite <- Ht in Hcached. rewrite Hcached in Hcall.
  unfold bind. rewrite Hcall. subst w0. by destruct w1.
Qed.

(** ** [find_all] without a discovery endpoint *)

Lemma Creds_call_ok (t content : string) (o : AuthObj) (w : World) :
  new_obj t content = Ok o →
  ∃ a w1,
    Creds_call t content w = (Ok a, w1)
    ∧ creds_table w1 = creds_table w
    ∧ cache w ⊆ cache w1
    ∧ cache w1 !! sha256_hexdigest (t +:+ identifier o) = Some a.
Proof.
  intros Ho. rewrite (Creds_call_run t content o w Ho).
  destruct (cache w !! _) as [a|] eqn:Hk.
  - exists a, w. done.
  - eexists _, _. split; [reflexivity|]. simpl. split_and!; [done| |].
    + by apply insert_subseteq.
    + apply lookup_insert_eq.
Qed.

Lemma find_all_is_construct_all (scope0 : option bool) (w : World) :
  ∃ ev, find_all scope0 None w
        = construct_all (selected scope0 (creds_table w)) (record ev w).
Proof.
  destruct scope0 as [s|]; eexists; destruct w; reflexivity.
Qed.

Lemma construct_all_ok (rows : list Row) (w : World) :
  Forall (λ r, ∃ o, new_obj (row_type r) (row_content r) = Ok o) rows →
  ∃ addrs w',
    construct_all rows w = (Ok addrs, w')
    ∧ creds_table w' = creds_table w
    ∧ cache w ⊆ cache w'
    ∧ Forall2 (instance_of_row w') addrs rows.
Proof.
  intros Hrows. revert w. induction Hrows as [|r rows [o Ho] _ IH]; intros w.
  - exists [], w. simpl. split_and!; [done..|constructor].
  - destruct (Creds_call_ok (row_type r) (row_content r) o w Ho)
      as (a & w1 & Hcall & Ht1 & Hsub1 & Hk1).
    destruct (IH w1) as (addrs & w' & Hrest & Ht & Hsub & Hall).
    exists (a :: addrs), w'. simpl. unfold bind. rewrite Hcall, Hrest.
    split_and!; [done|congruence|by etrans|].
    constructor; [|done].
    exists o. split; [done|]. eapply lookup_weaken; [apply Hk1|apply Hsub].
Qed.

(** [find_all] without a discovery endpoint, when every selected row
    parses: it returns one instance per row whose scope column is the flag
    given (per row of the table when no flag is given), in storage order;
    each is live and is the instance cached under the fingerprint of its
    row; the table is left as it was. *)
Theorem find_all_lists_selected_rows (scope0 : option bool) (w : World) :
  consistent w →
  Forall (λ r, ∃ o, new_obj (row_type r) (row_content r) = Ok o)
    (selected scope0 (creds_table w)) →
  ∃ addrs w',
    find_all scope0 None w = (Ok addrs, w')
    ∧ creds_table w' = creds_table w
    ∧ Forall2 (instance_of_row w') addrs (selected scope0 (creds_table w))
    ∧ Forall (λ a, is_Some (heap w' !! a)) addrs.
Proof.
  intros Hw Hrows.
  pose proof (find_all_consistent scope0 None w Hw) as Hw'.
  destruct (find_all_is_construct_all scope0 w) as [ev Hfind].
  destruct (construct_all_ok _ (record ev w) Hrows) as (addrs & w' & Hrun & Ht & _ & Hall).
  rewrite Hfind, Hrun. rewrite Hfind, Hrun in Hw'. simpl in Hw'.
  exists addrs, w'. split_and!; [done..|].
  apply Forall_forall. intros a Ha.
  apply list_elem_of_lookup in Ha as [k Hk].
  destruct (Forall2_lookup_l _ _ _ _ _ Hall Hk) as (r & _ & o & _ & Hcache).
  by eapply (cache_live w' Hw').
Qed.

Lemma construct_all_raises (pre post : list Row) (bad : Row) (e : exn) (w : World) :
  Forall (λ r, ∃ o, new_obj (row_type r) (row_content r) = Ok o) pre →
  new_obj (row_type bad) (row_content bad) = Raise e →
  ∃ w',
    construct_all (pre ++ bad :: post) w = (Raise e, w')
    ∧ creds_table w' = creds_table w
    ∧ cache w ⊆ cache w'
    ∧ Forall (λ r, ∃ a, instance_of_row w' a r) pre.
Proof.
  intros Hpre Hbad. revert w. induction Hpre as [|r pre [o Ho] _ IH]; intros w.
  - exists w. simpl. unfold bind.
    rewrite (Creds_call_raises _ _ e w Hbad). split_and!; [done..|constructor].
  - destruct (Creds_call_ok (row_type r) (row_content r) o w Ho)
      as (a & w1 & Hcall & Ht1 & Hsub1 & Hk1).
    destruct (IH w1) as (w' & Hrest & Ht & Hsub & Hall).
    exists w'. simpl. unfold bind. rewrite Hcall, Hrest.
    split_and!; [done|congruence|by etrans|].
    constructor; [|done].
    exists a, o. split; [done|]. eapply lookup_weaken; [apply Hk1|apply Hsub].
Qed.

(** [find_all] stops at the first selected row whose type or content the
    registry does not parse: it raises that row's exception and returns no
    list, after the instances of the rows before it have been constructed
    and cached; the table is left as it was. *)
Theorem find_all_raises_at_unparsable_row (scope0 : option bool) (w : World)
    (pre post : list Row) (bad : Row) (e : exn) :
  selected scope0 (creds_table w) = pre ++ bad :: post →
  Forall (λ r, ∃ o, new_obj (row_type r) (row_content r) = Ok o) pre →
  new_obj (row_type bad) (row_content bad) = Raise e →
  ∃ w',
    find_all scope0 None w = (Raise e, w')
    ∧ creds_table w' = creds_table w
    ∧ Forall (λ r, ∃ a, instance_of_row w' a r) pre.
Proof.
  intros Hsel Hpre Hbad.
  destruct (find_all_is_construct_all scope0 w) as [ev Hfind].
  destruct (construct_all_raises pre post bad e (record ev w) Hpre Hbad)
    as (w' & Hrun & Ht & _ & Hall).
  rewrite Hfind, Hsel, Hrun. exists w'. done.
Qed.

(** ** [save] and the other rows *)

(** [save] touches no row but the one with the instance's [id]: every
    other row of the table is still there, at its place, after the call
    (all the rows, when the instance is unsaved and a row is appended). *)
Theorem save_leaves_other_rows (w : World) (self : nat) (c : Creds) (k : nat) (r : Row) :
  heap w !! self = Some c →
  creds_table w !! k = Some r →
  id c ≠ Some (row_id r) →
  creds_table (snd (save self w)) !! k = Some r.
Proof.
  intros Hc Hk Hid. destruct (id c) as [i|] eqn:Hi.
  - rewrite (save_update_run w self c i Hc Hi). simpl.
    rewrite list_lookup_fmap, Hk. simpl. unfold update_row.
    rewrite bool_decide_eq_false_2; [done|]. congruence.
  - destruct (save_insert_run w self c Hc Hi) as (r' & _ & ->). simpl.
    by apply lookup_app_l_Some.
Qed.

(** [save] of an unsaved instance does not look for a row of its identity
    first: when one exists already, a second row of the same (type,
    identifier) is appended, and the instance takes the [id] of the older
    row, not of the row it inserted. *)
Theorem save_unsaved_appends_duplicate (w : World) (self : nat) (c : Creds)
    (r0 : Row) (rest : list Row) :
  heap w !! self = Some c →
  id c = None →
  rows_of c (creds_table w) = r0 :: rest →
  ∃ w',
    save self w = (Ok tt, w')
    ∧ creds_table w' = creds_table w ++ [inserted_row c (creds_table w)]
    ∧ heap w' !! self = Some (with_id (Some (row_id r0)) c)
    ∧ row_id r0 ≠ row_id (inserted_row c (creds_table w))
    ∧ ¬ NoDup (row_identity <$> creds_table w').
Proof.
  intros Hc Hi Hrows.
  destruct (save_insert_run w self c Hc Hi) as (r & Hr & Hrun).
  rewrite Hrows in Hr. simpl in Hr. injection Hr as <-.
  assert (Hin : r0 ∈ creds_table w ∧ row_identity r0 = identity_of c).
  { assert (H0 : r0 ∈ rows_of c (creds_table w)) by (rewrite Hrows; apply elem_of_cons; auto).
    apply list_elem_of_filter in H0 as [Hsame H0]. split; [done|].
    by apply row_identity_same. }
  destruct Hin as [Hin Hident].
  eexists. split; [apply Hrun|]. simpl. split_and!; [done| | |].
  - apply lookup_insert_eq.
  - pose proof (next_rowid_fresh (creds_table w)) as Hfresh.
    rewrite Forall_forall in Hfresh. specialize (Hfresh r0 Hin). simpl. lia.
  - rewrite fmap_app. intros Hnd. apply NoDup_app in Hnd as (_ & Hdisj & _).
    apply (Hdisj (row_identity r0)).
    + by apply list_elem_of_fmap_2.
    + simpl. apply list_elem_of_singleton. by rewrite Hident.
Qed.

(** ** Loading a row and saving it back *)

Lemma lookup_endpoint_id (w : World) (e : Z) (ep : Endpoint) :
  lookup_endpoint w e = Some ep → endpoint_id ep = Some e.
Proof.
  unfold lookup_endpoint. intros Hfind.
  apply find_some in Hfind as [_ Hid]. by apply bool_decide_eq_true in Hid.
Qed.

Lemma update_own_row (tbl : list Row) (r r' : Row) :
  NoDup (row_id <$> tbl) →
  r ∈ tbl →
  row_id r' = row_id r →
  ∃ k, tbl !! k = Some r
       ∧ update_row (row_type r') (row_content r') (row_identifier r')
           (row_scope r') (row_found r') (row_id r) <$> tbl = <[k := r']> tbl.
Proof.
  intros Hnd Hr Hid. induction tbl as [|x tbl IH]; [by apply elem_of_nil in Hr|].
  rewrite fmap_cons in Hnd. apply NoDup_cons in Hnd as [Hx Hnd].
  apply elem_of_cons in Hr as [<-|Hr].
  - exists 0%nat. split; [done|]. rewrite fmap_cons. simpl. f_equal.
    + unfold update_row. rewrite bool_decide_eq_true_2 by done.
      destruct r'; simpl in *. by rewrite Hid.
    + apply update_row_no_match, Forall_forall. intros y Hy Hsame.
      apply Hx. rewrite <- Hsame. by apply list_elem_of_fmap_2.
  - destruct (IH Hnd Hr) as (k & Hk & Hupd).
    exists (S k). split; [done|]. rewrite fmap_cons. simpl. f_equal; [|done].
    unfold update_row. rewrite bool_decide_eq_false_2; [done|].
    intros Hsame. apply Hx. rewrite Hsame. by apply list_elem_of_fmap_2.
Qed.

(** Construct from a stored row, then save. In a consistent workspace
    with no cached instance of the row's fingerprint, constructing from
    the row's own (type, content) and saving the instance rewrites that
    row in place, with its scope normalised to 0 or 1 and its found
    column replaced by the id of the endpoint it resolves to (NULL when it
    resolves to none); no other row changes. *)
Theorem load_then_save_rewrites_row (w : World) (r : Row) (o : AuthObj) :
  consistent w →
  r ∈ creds_table w →
  new_obj (row_type r) (row_content r) = Ok o →
  identifier o = row_identifier r →
  cache w !! sha256_hexdigest (row_type r +:+ identifier o) = None →
  ∃ self w1 w2 k,
    Creds_call (row_type r) (row_content r) w = (Ok self, w1)
    ∧ heap w1 !! self = Some (loaded r o w)
    ∧ save self w1 = (Ok tt, w2)
    ∧ creds_table w !! k = Some r
    ∧ creds_table w2 = <[k := resaved r w]> (creds_table w).
Proof.
  intros Hw Hr Ho Hident Hmiss.
  pose proof (Creds_call_run (row_type r) (row_content r) o w Ho) as Hcall.
  rewrite Hmiss in Hcall.
  set (self := fresh (dom (heap w))) in *.
  set (w1 := constructed (row_type r) (row_content r) o w) in *.
  assert (Hc1 : heap w1 !! self = Some (loaded r o w)).
  { subst w1. simpl. rewrite lookup_insert_eq. f_equal. unfold initialised, loaded.
    rewrite (unique_row (row_type r) (identifier o) (creds_table w) r
               (identities_unique w Hw) Hr) by (by rewrite Hident).
    done. }
  destruct (update_own_row (creds_table w) r (resaved r w) (ids_unique w Hw) Hr eq_refl)
    as (k & Hk & Hupd).
  eexists self, w1, _, k.
  split; [done|]. split; [done|].
  split; [apply (save_update_run w1 self (loaded r o w) (row_id r) Hc1 eq_refl)|].
  split; [done|]. simpl.
  rewrite <- Hupd. simpl. rewrite Hident.
  unfold found_param. simpl.
  by destruct (row_found r ≫= lookup_endpoint w).
Qed.

(** The round trip is the identity on rows as [save] writes them: when
    the scope of the row is 0 or 1 and its found column is NULL or
    resolves to an endpoint, loading the row and saving it back leaves the
    table exactly as it was. *)
Theorem load_then_save_round_trip (w : World) (r : Row) (o : AuthObj) :
  consistent w →
  r ∈ creds_table w →
  new_obj (row_type r) (row_content r) = Ok o →
  identifier o = row_identifier r →
  cache w !! sha256_hexdigest (row_type r +:+ identifier o) = None →
  row_scope r = 0%Z ∨ row_scope r = 1%Z →
  row_found r = None ∨ is_Some (row_found r ≫= lookup_endpoint w) →
  ∃ self w1 w2,
    Creds_call (row_type r) (row_content r) w = (Ok self, w1)
    ∧ save self w1 = (Ok tt, w2)
    ∧ creds_table w2 = creds_table w.
Proof.
  intros Hw Hr Ho Hident Hmiss Hscope Hfound.
  destruct (load_then_save_rewrites_row w r o Hw Hr Ho Hident Hmiss)
    as (self & w1 & w2 & k & Hcall & _ & Hsave & Hk & Ht).
  exists self, w1, w2. split_and!; [done..|].
  rewrite Ht. apply list_insert_id. rewrite Hk. f_equal.
  unfold resaved. destruct r as [i t c ident s f]. simpl in *. f_equal.
  - by destruct Hscope as [-> | ->].
  - destruct Hfound as [-> | [ep Hep]]; [done|].
    rewrite Hep. simpl. destruct f as [e|]; [|done]. simpl in Hep.
    by apply lookup_endpoint_id in Hep.
Qed.

(** A stored reference to an endpoint that no longer resolves is lost on
    the way: after loading the row and saving it back, the row has NULL
    in its found column. *)
Theorem load_then_save_drops_dangling_found (w : World) (r : Row) (o : AuthObj) (e : Z) :
  consistent w →
  r ∈ creds_table w →
  new_obj (row_type r) (row_content r) = Ok o →
  identifier o = row_identifier r →
  cache w !! sha256_hexdigest (row_type r +:+ identifier o) = None →
  row_found r = Some e →
  lookup_endpoint w e = None →
  ∃ self w1 w2 r',
    Creds_call (row_type r) (row_content r) w = (Ok self, w1)
    ∧ save self w1 = (Ok tt, w2)
    ∧ r' ∈ creds_table w2
    ∧ row_id r' = row_id r
    ∧ row_found r' = None
    ∧ r ∉ creds_table w2.
Proof.
  intros Hw Hr Ho Hident Hmiss Hfound Hlookup.
  destruct (load_then_save_rewrites_row w r o Hw Hr Ho Hident Hmiss)
    as (self & w1 & w2 & k & Hcall & _ & Hsave & Hk & Ht).
  pose proof (save_consistent self w1) as Hw2.
  pose proof (Creds_call_consistent (row_type r) (row_content r) w Hw) as Hw1.
  rewrite Hcall in Hw1. simpl in Hw1. specialize (Hw2 Hw1).
  rewrite Hsave in Hw2. simpl in Hw2.
  assert (Hin : resaved r w ∈ creds_table w2).
  { rewrite Ht. apply list_elem_of_lookup. exists k.
    apply list_lookup_insert_eq. by eapply lookup_lt_Some. }
  assert (Hnone : row_found (resaved r w) = None).
  { unfold resaved. simpl. rewrite Hfound. simpl. by rewrite Hlookup. }
  exists self, w1, w2, (resaved r w). split_and!; [done..|].
  intros Hr2.
  assert (r = resaved r w) as Heq.
  { eapply NoDup_fmap_inj_on; [apply (ids_unique w2 Hw2)|done..]. }
  rewrite <- Heq in Hnone. congruence.
Qed.

(** ** [delete], then what *)

(** A deleted credential is not written back by [save]: after a
    successful [delete] the instance still has its [id], so [save] on it
    runs an UPDATE that matches no row, and the table stays without a row
    of that id. *)
Theorem delete_then_save_restores_nothing (w : World) (self : nat) (c : Creds) (i : Z)
    (fp : string) :
  heap w !! self = Some c →
  id c = Some i →
  get_id (credsType c) (credsContent c) = Ok fp →
  Forall (λ x, ¬ is_raise (Connection_delete x)) (dependents i w) →
  ∃ report w1 w2,
    delete self w = (Ok (Some report), w1)
    ∧ save self w1 = (Ok tt, w2)
    ∧ heap w2 !! self = Some c
    ∧ creds_table w2 = creds_table w1
    ∧ Forall (λ r, row_id r ≠ i) (creds_table w2).
Proof.
  intros Hc Hid Hfp Hok.
  destruct (delete_saved_run w self c i fp Hc Hid Hfp Hok)
    as (w1 & Hrun & Ht & _ & Hh & _ & _).
  assert (Hc1 : heap w1 !! self = Some c) by by rewrite Hh.
  assert (Hrows : Forall (λ r, row_id r ≠ i) (creds_table w1)).
  { rewrite Ht. apply Forall_forall. intros r Hr.
    by apply list_elem_of_filter in Hr as [Hr _]. }
  eexists _, w1, _. split; [apply Hrun|].
  split; [apply (save_update_run w1 self c i Hc1 Hid)|]. simpl.
  rewrite update_row_no_match by done. done.
Qed.

(** The fingerprint of the report is computed last. When the registry no
    longer parses the instance's (type, content), [delete] raises the
    registry's exception and returns no report, after the dependent
    connections and the row have been deleted and the deletion has been
    committed. *)
Theorem delete_raises_after_commit (w : World) (self : nat) (c : Creds) (i : Z) (e : exn) :
  heap w !! self = Some c →
  id c = Some i →
  get_id (credsType c) (credsContent c) = Raise e →
  Forall (λ x, ¬ is_raise (Connection_delete x)) (dependents i w) →
  ∃ w',
    delete self w = (Raise e, w')
    ∧ creds_table w' = filter (λ r, row_id r ≠ i) (creds_table w)
    ∧ dependents i w' = []
    ∧ journal w' = journal w ++
        Connection_find_all_called i :: (Connection_delete_called <$> dependents i w) ++
        [Obj_delete_called (obj c); Execute (DELETE_FROM_creds_WHERE_id i); Commit].
Proof.
  intros Hc Hid Hfp Hok.
  unfold delete, deref, Connection_find_all. run. rewrite Hc. simpl. rewrite Hid. simpl.
  fold (dependents i w).
  set (w0 := record (Connection_find_all_called i) w).
  destruct (delete_connections_all_ok (dependents i w) ∅ w0 Hok)
    as (w1 & Hrun & Ht & _ & _ & _ & Hj & Hcs).
  rewrite Hrun. unfold obj_delete, execute, commit. run. rewrite Hfp. simpl.
  eexists. split; [reflexivity|]. simpl.
  rewrite Ht, Hj. simpl. split_and!; [done| |by rewrite <- !app_assoc].
  unfold dependents at 1. simpl. rewrite Hcs. apply filter_none, dependents_removed.
Qed.

(** ** [__str__] *)

Lemma str_int_parses (z : Z) :
  NilZero.int_of_string (str_int z) = Some (Z.to_int z).
Proof.
  unfold str_int. apply NilZero.isi.
  - destruct z as [|p|p]; simpl; [discriminate| |discriminate].
    intros [= Hnil]. by apply Unsigned.to_uint_nonnil in Hnil.
  - destruct z as [|p|p]; simpl; [discriminate|discriminate|].
    intros [= Hnil]. by apply Unsigned.to_uint_nonnil in Hnil.
Qed.

Lemma str_int_inj (z1 z2 : Z) : str_int z1 = str_int z2 → z1 = z2.
Proof.
  intros Heq. apply (f_equal NilZero.int_of_string) in Heq.
  rewrite !str_int_parses in Heq. injection Heq as Heq.
  rewrite <- (DecimalZ.of_to z1), <- (DecimalZ.of_to z2). by rewrite Heq.
Qed.

(** The label of a credential tells its id: two instances print the same
    ["#..."] exactly when they have the same [id]; in particular no saved
    instance prints as ["#None"]. *)
Theorem Creds_str_tells_id (c1 c2 : Creds) :
  Creds_str c1 = Creds_str c2 ↔ id c1 = id c2.
Proof.
  unfold Creds_str. split; [|by intros ->].
  intros Heq. injection Heq as Heq.
  change (match id c1 with Some i => str_int i | None => "None" end
          = match id c2 with Some i => str_int i | None => "None" end) in Heq.
  destruct (id c1) as [i1|], (id c2) as [i2|]; try done.
  - f_equal. by apply str_int_inj.
  - apply (f_equal NilZero.int_of_string) in Heq.
    rewrite str_int_parses in Heq. discriminate.
  - apply (f_equal NilZero.int_of_string) in Heq.
    rewrite str_int_parses in Heq. discriminate.
Qed.

(** ** Fingerprints of different kinds *)

Lemma initialised_content (t content : string) (o : AuthObj) (w : World) :
  credsContent (initialised t content o w) = content.
Proof. unfold initialised. by destruct (fetchone _). Qed.

(** The fingerprint joins the kind and the identifier with nothing in
    between, so two (kind, identifier) pairs with the same concatenation
    share it: once a credential of the first pair is constructed, the
    construction of one of the second pair returns the first pair's
    instance, without looking at the table. *)
Theorem construction_confuses_equal_concatenations (w : World)
    (t1 content1 t2 content2 : string) (o1 o2 : AuthObj) :
  new_obj t1 content1 = Ok o1 →
  new_obj t2 content2 = Ok o2 →
  t1 +:+ identifier o1 = t2 +:+ identifier o2 →
  cache w !! sha256_hexdigest (t1 +:+ identifier o1) = None →
  ∃ self w1 c,
    Creds_call t1 content1 w = (Ok self, w1)
    ∧ get_id t2 content2 = get_id t1 content1
    ∧ Creds_call t2 content2 w1 = (Ok self, w1)
    ∧ heap w1 !! self = Some c
    ∧ credsType c = t1
    ∧ credsContent c = content1.
Proof.
  intros Ho1 Ho2 Hcat Hmiss.
  pose proof (Creds_call_run t1 content1 o1 w Ho1) as Hcall1. rewrite Hmiss in Hcall1.
  eexists _, _, _. split; [apply Hcall1|].
  split; [unfold get_id; by rewrite Ho1, Ho2, Hcat|].
  split.
  - rewrite (Creds_call_run t2 content2 o2 _ Ho2). rewrite <- Hcat. simpl.
    by rewrite lookup_insert_eq.
  - simpl. rewrite lookup_insert_eq. split; [done|].
    split; [apply initialised_identity|apply initialised_content].
Qed.

(** ** [edit] *)

Section edit_properties.
Variable obj_edit : AuthObj → result (AuthObj * string).

Lemma edit_run (w : World) (self : nat) (c : Creds) (o' : AuthObj) (content' : string) :
  heap w !! self = Some c →
  obj_edit (obj c) = Ok (o', content') →
  edit obj_edit self w
  = save self (set_heap (<[self := with_obj o' content' c]> (heap w)) w).
Proof.
  intros Hc Hedit. unfold edit, deref, store. run. rewrite Hc. simpl.
  by rewrite Hedit.
Qed.

(** [edit] of a saved instance keeps its [id] and the rows of the table:
    it rewrites the row of that id with the edited content and the
    identifier of the edited codec object, and adds, removes and changes
    no other row. *)
Theorem edit_saved_rewrites_own_row (w : World) (self : nat) (c : Creds) (i : Z)
    (o' : AuthObj) (content' : string) :
  heap w !! self = Some c →
  id c = Some i →
  obj_edit (obj c) = Ok (o', content') →
  ∃ w',
    edit obj_edit self w = (Ok tt, w')
    ∧ heap w' !! self = Some (with_obj o' content' c)
    ∧ row_id <$> creds_table w' = row_id <$> creds_table w
    ∧ (∀ k r, creds_table w !! k = Some r → row_id r ≠ i → creds_table w' !! k = Some r)
    ∧ (∀ k r, creds_table w !! k = Some r → row_id r = i →
         creds_table w' !! k =
           Some {| row_id := i; row_type := credsType c; row_content := content';
                   row_identifier := identifier o'; row_scope := sql_bool (scope c);
                   row_found := found_param c |}).
Proof.
  intros Hc Hid Hedit.
  rewrite (edit_run w self c o' content' Hc Hedit).
  set (w0 := set_heap _ w).
  assert (Hc0 : heap w0 !! self = Some (with_obj o' content' c)) by apply lookup_insert_eq.
  eexists. split; [apply (save_update_run w0 self _ i Hc0 Hid)|]. simpl.
  split_and!; [apply lookup_insert_eq|apply update_row_ids| |].
  - intros k r Hk Hne. rewrite list_lookup_fmap, Hk. simpl.
    unfold update_row. by rewrite bool_decide_eq_false_2.
  - intros k r Hk Heq. rewrite list_lookup_fmap, Hk. simpl.
    unfold update_row. rewrite bool_decide_eq_true_2 by done. by rewrite Heq.
Qed.

(** [edit] does not look whether the edited identity is taken. When the
    edit turns the identifier of a saved instance into that of another
    row of the same type, the table ends with two rows of one (type,
    identifier): the instance's own row, rewritten, and the other. *)
Theorem edit_can_duplicate_identity (w : World) (self : nat) (c : Creds) (i : Z)
    (o' : AuthObj) (content' : string) (own other : Row) :
  heap w !! self = Some c →
  id c = Some i →
  obj_edit (obj c) = Ok (o', content') →
  own ∈ creds_table w →
  row_id own = i →
  other ∈ creds_table w →
  row_id other ≠ i →
  row_identity other = (credsType c, identifier o') →
  ∃ w',
    edit obj_edit self w = (Ok tt, w')
    ∧ length (creds_table w') = length (creds_table w)
    ∧ ¬ NoDup (row_identity <$> creds_table w').
Proof.
  intros Hc Hid Hedit Hown Hown_id Hother Hother_id Hident.
  destruct (edit_saved_rewrites_own_row w self c i o' content' Hc Hid Hedit)
    as (w' & Hrun & _ & Hids & Hframe & Hrewrite).
  exists w'. split; [done|]. split.
  - rewrite <- (length_fmap row_id (creds_table w')), Hids. apply length_fmap.
  - intros Hnd.
    apply list_elem_of_lookup in Hown as [k1 Hk1].
    apply list_elem_of_lookup in Hother as [k2 Hk2].
    specialize (Hrewrite k1 own Hk1 Hown_id).
    specialize (Hframe k2 other Hk2 Hother_id).
    assert (k1 = k2) as ->.
    { eapply NoDup_lookup; [apply Hnd|..].
      - rewrite list_lookup_fmap, Hrewrite. reflexivity.
      - rewrite list_lookup_fmap, Hframe. simpl. by rewrite Hident. }
    rewrite Hk1 in Hk2. injection Hk2 as ->. done.
Qed.

End edit_properties.

End more_properties.

(** * The properties on the concrete registry *)

#[local] Existing Instance Demo.externals.

Lemma get_id_is_digest_of_identity_witness :
  get_id "password" "user:pass" = Ok "sha256:passworduser"
  ∧ get_id "password" "user:other" = get_id "password" "user:pass".
Proof.
  destruct (get_id_is_digest_of_identity "password" "user:pass" "user:other"
              {| identifier := "user" |} {| identifier := "user" |})
    as (H1 & H2 & _); [reflexivity..|].
  split; [exact H1|exact H2].
Defined.

Lemma delete_unsaved_returns_None_witness :
  delete 0 Demo.unsaved_world = (Ok None, Demo.unsaved_world).
Proof.
  apply (delete_unsaved_returns_None Demo.unsaved_world 0 Demo.user_pass); reflexivity.
Defined.

(** C4 as stated fails: on an unsaved instance [delete] returns [None],
    which is not the empty report. *)
Lemma delete_unsaved_empty_report_counterexample :
  heap Demo.unsaved_world !! 0%nat = Some Demo.user_pass
  ∧ id Demo.user_pass = None
  ∧ fst (delete 0 Demo.unsaved_world) = Ok None
  ∧ fst (delete 0 Demo.unsaved_world) ≠ Ok (Some ∅).
Proof. split_and!; [reflexivity..|discriminate]. Qed.

Lemma save_update_missing_row_is_silent_witness :
  ∃ w', save 0 Demo.stale_world = (Ok tt, w')
        ∧ creds_table w' = creds_table Demo.stale_world.
Proof.
  destruct (save_update_missing_row_is_silent Demo.stale_world 0
              (with_id (Some 7%Z) Demo.user_pass) 7)
    as (w' & Hrun & Ht & _); [reflexivity|reflexivity|constructor|].
  exists w'. split; [exact Hrun|exact Ht].
Defined.

(** C6 as stated fails: the instance has [id] 7, the table has no row 7,
    and [save] returns normally. *)
Lemma save_update_NotFound_counterexample :
  heap Demo.stale_world !! 0%nat = Some (with_id (Some 7%Z) Demo.user_pass)
  ∧ Forall (λ r, row_id r ≠ 7%Z) (creds_table Demo.stale_world)
  ∧ fst (save 0 Demo.stale_world) = Ok tt
  ∧ ¬ is_raise (fst (save 0 Demo.stale_world)).
Proof. split_and!; [reflexivity|constructor|reflexivity|]. intros []. Qed.

Lemma save_twice_keeps_id_and_rows_witness :
  ∃ w1 w2,
    save 0 Demo.unsaved_world = (Ok tt, w1)
    ∧ save 0 w1 = (Ok tt, w2)
    ∧ heap w2 = heap w1
    ∧ creds_table w2 = creds_table w1.
Proof.
  destruct (save_twice_keeps_id_and_rows Demo.unsaved_world 0 Demo.user_pass)
    as (w1 & w2 & c1 & i & Hrun1 & _ & _ & _ & _ & Hrun2 & Hheap & _ & _ & _ & Hsame);
    [reflexivity|].
  exists w1, w2. split_and!; [exact Hrun1|exact Hrun2|exact Hheap|].
  apply Hsame. right. reflexivity.
Defined.

Lemma delete_cascades_and_reports_witness :
  ∃ report w',
    delete 0 Demo.saved_world = (Ok (Some report), w')
    ∧ dependents 1 w' = []
    ∧ creds_table w' = [].
Proof.
  destruct (delete_cascades_and_reports Demo.saved_world 0 Demo.saved_creds 1
              "sha256:passworduser")
    as (report & w' & Hrun & Hdeps & _ & Ht & _);
    [reflexivity|reflexivity|reflexivity| |].
  - repeat constructor; intros [].
  - exists report, w'. split_and!; [exact Hrun|exact Hdeps|exact Ht].
Defined.

Lemma delete_aborts_on_connection_failure_witness :
  ∃ w', delete 0 Demo.failing_world = (Raise (ExtError "OSError"), w')
        ∧ creds_table w' = [Demo.user_row].
Proof.
  destruct (delete_aborts_on_connection_failure Demo.failing_world 0 Demo.saved_creds 1)
    as [_ Habort]; [reflexivity|reflexivity|].
  destruct (Habort [ {| connection_id := 2; connection_creds := 1 |} ]
              {| connection_id := 13; connection_creds := 1 |}
              [ {| connection_id := 3; connection_creds := 1 |} ]
              (ExtError "OSError"))
    as (w' & Hrun & Ht & _); [reflexivity| |reflexivity|].
  - repeat constructor; intros [].
  - exists w'. split; [exact Hrun|exact Ht].
Defined.

Lemma delete_twice_reports_again_witness :
  ∃ report w1 w2,
    delete 0 Demo.saved_world = (Ok (Some report), w1)
    ∧ delete 0 w1 = (Ok (Some {[ "Creds" := {[ "sha256:passworduser" ]} ]}), w2)
    ∧ creds_table w2 = creds_table w1.
Proof.
  destruct (delete_twice_reports_again Demo.saved_world 0 Demo.saved_creds 1
              "sha256:passworduser")
    as (report & w1 & w2 & Hrun1 & _ & _ & Hrun2 & Ht & _);
    [reflexivity|reflexivity|reflexivity| |].
  - repeat constructor; intros [].
  - exists report, w1, w2. split_and!; [exact Hrun1|exact Hrun2|exact Ht].
Defined.

Lemma identities_stay_unique_witness :
  NoDup (row_identity <$>
           creds_table (snd (save 0 (snd (Creds_call "password" "user:pass" Demo.empty_world))))).
Proof.
  apply (identities_stay_unique Demo.empty_world).
  - split_and!; [reflexivity|reflexivity|constructor|constructor].
  - eapply rtc_l; [apply (step_construct "password" "user:pass")|].
    eapply rtc_l; [apply (step_save 0)|]. apply rtc_refl.
Defined.

Lemma construct_again_after_save_witness :
  ∃ w2,
    save 0 (snd (Creds_call "password" "user:pass" Demo.empty_world)) = (Ok tt, w2)
    ∧ Creds_call "password" "user:pass" w2 = (Ok 0%nat, w2)
    ∧ ∃ c2 w3, Creds_init "password" "user:pass" w2 = (Ok c2, w3)
               ∧ id c2 = Some 1%Z.
Proof.
  destruct (construct_again_after_save Demo.empty_world
              (snd (Creds_call "password" "user:pass" Demo.empty_world))
              "password" "user:pass" 0)
    as (w2 & c1 & i & r & o & Hsave & Hc1 & Hi & Hcall & _ & _ & _ & _ & _ & Ho & Hinit).
  - apply initial_consistent.
    split_and!; [reflexivity|reflexivity|constructor|constructor].
  - reflexivity.
  - exists w2. split_and!; [exact Hsave|exact Hcall|].
    destruct Hinit as (c2 & w3 & Hrun & _ & Hid & _).
    + left. injection Ho as <-. reflexivity.
    + exists c2, w3. split; [exact Hrun|].
      rewrite Hid, Hi. f_equal.
      assert (Hw2 : snd (save 0 (snd (Creds_call "password" "user:pass" Demo.empty_world)))
                    = w2) by (rewrite Hsave; reflexivity).
      rewrite <- Hw2 in Hc1. vm_compute in Hc1. injection Hc1 as <-.
      simpl in Hi. congruence.
Defined.

Lemma stored_world_consistent : consistent Demo.stored_world.
Proof.
  apply initial_consistent.
  split_and!; [reflexivity|reflexivity|repeat constructor; set_solver..].
Qed.

Lemma stored_two_rows_world_consistent : consistent Demo.stored_two_rows_world.
Proof.
  apply initial_consistent.
  split_and!; [reflexivity|reflexivity| |].
  - apply (bool_decide_unpack _). by vm_compute.
  - apply (bool_decide_unpack _). by vm_compute.
Qed.

Lemma find_one_missing_id_witness :
  fst (find_one 7 Demo.stored_world) = Ok None.
Proof.
  rewrite (find_one_missing_id 7 Demo.stored_world); [reflexivity|].
  repeat constructor. discriminate.
Defined.

Lemma find_one_loads_row_witness :
  ∃ self w', find_one 1 Demo.stored_world = (Ok (Some self), w')
             ∧ heap w' !! self = Some Demo.saved_creds.
Proof.
  destruct (find_one_loads_row Demo.stored_world Demo.user_row {| identifier := "user" |})
    as (self & w' & Hrun & _ & Hc & _);
    [apply stored_world_consistent|by left|reflexivity|reflexivity|reflexivity|].
  exists self, w'. split; [exact Hrun|exact Hc].
Defined.

Lemma save_then_find_one_same_instance_witness :
  ∃ w1 i,
    save 0 (snd (Creds_call "password" "user:pass" Demo.empty_world)) = (Ok tt, w1)
    ∧ fst (find_one i w1) = Ok (Some 0%nat).
Proof.
  destruct (save_then_find_one_same_instance
              (snd (Creds_call "password" "user:pass" Demo.empty_world)) 0 Demo.user_pass)
    as (w1 & i & Hsave & _ & Hfind).
  - apply Creds_call_consistent, initial_consistent.
    split_and!; [reflexivity|reflexivity|constructor|constructor].
  - reflexivity.
  - reflexivity.
  - exists w1, i. split; [exact Hsave|]. rewrite Hfind. reflexivity.
Defined.

Lemma find_all_lists_selected_rows_witness :
  ∃ addrs w', find_all (Some true) None Demo.stored_world = (Ok addrs, w')
              ∧ length addrs = 1%nat.
Proof.
  destruct (find_all_lists_selected_rows (Some true) Demo.stored_world)
    as (addrs & w' & Hrun & _ & Hall & _).
  - apply stored_world_consistent.
  - apply Forall_cons. split; [|constructor]. eexists. reflexivity.
  - exists addrs, w'. split; [exact Hrun|]. apply (Forall2_length _ _ _ Hall).
Defined.

Lemma find_all_raises_at_unparsable_row_witness :
  ∃ w', find_all None None Demo.odd_rows_world = (Raise (ExtError "KeyError"), w')
        ∧ creds_table w' = creds_table Demo.odd_rows_world.
Proof.
  destruct (find_all_raises_at_unparsable_row None Demo.odd_rows_world
              [Demo.user_row] [Demo.root_row] Demo.odd_row (ExtError "KeyError"))
    as (w' & Hrun & Ht & _).
  - reflexivity.
  - apply Forall_cons. split; [|constructor]. eexists. reflexivity.
  - reflexivity.
  - exists w'. split; [exact Hrun|exact Ht].
Defined.

Lemma save_leaves_other_rows_witness :
  creds_table (snd (save 0 Demo.two_rows_world)) !! 1%nat = Some Demo.root_row.
Proof.
  apply (save_leaves_other_rows Demo.two_rows_world 0 Demo.saved_creds 1 Demo.root_row);
    [reflexivity|reflexivity|discriminate].
Defined.

Lemma save_unsaved_appends_duplicate_witness :
  ∃ w', save 0 Demo.shadowed_world = (Ok tt, w')
        ∧ heap w' !! 0%nat = Some Demo.saved_creds
        ∧ length (creds_table w') = 2%nat.
Proof.
  destruct (save_unsaved_appends_duplicate Demo.shadowed_world 0 Demo.user_pass
              Demo.user_row [])
    as (w' & Hrun & Ht & Hc & _); [reflexivity..|].
  exists w'. split_and!; [exact Hrun|exact Hc|]. rewrite Ht. reflexivity.
Defined.

Lemma load_then_save_rewrites_row_witness :
  ∃ self w1 w2,
    Creds_call "password" "user:pass" Demo.stored_world = (Ok self, w1)
    ∧ save self w1 = (Ok tt, w2)
    ∧ creds_table w2 = [Demo.user_row].
Proof.
  destruct (load_then_save_rewrites_row Demo.stored_world Demo.user_row
              {| identifier := "user" |})
    as (self & w1 & w2 & k & Hcall & _ & Hsave & Hk & Ht);
    [apply stored_world_consistent|by left|reflexivity|reflexivity|reflexivity|].
  exists self, w1, w2. split_and!; [exact Hcall|exact Hsave|].
  rewrite Ht. destruct k as [|k]; [reflexivity|discriminate Hk].
Defined.

Lemma load_then_save_round_trip_witness :
  ∃ self w1 w2,
    Creds_call "password" "user:pass" Demo.stored_world = (Ok self, w1)
    ∧ save self w1 = (Ok tt, w2)
    ∧ creds_table w2 = creds_table Demo.stored_world.
Proof.
  apply (load_then_save_round_trip Demo.stored_world Demo.user_row
           {| identifier := "user" |});
    [apply stored_world_consistent|by left|reflexivity|reflexivity|reflexivity
    |by right|by left].
Defined.

Lemma load_then_save_drops_dangling_found_witness :
  ∃ self w1 w2 r',
    Creds_call "password" "root:toor" Demo.stored_two_rows_world = (Ok self, w1)
    ∧ save self w1 = (Ok tt, w2)
    ∧ r' ∈ creds_table w2
    ∧ row_id r' = 2%Z
    ∧ row_found r' = None
    ∧ Demo.root_row ∉ creds_table w2.
Proof.
  apply (load_then_save_drops_dangling_found Demo.stored_two_rows_world Demo.root_row
           {| identifier := "root" |} 5);
    [apply stored_two_rows_world_consistent|by right; left
    |reflexivity|reflexivity|reflexivity|reflexivity|reflexivity].
Defined.

Lemma delete_then_save_restores_nothing_witness :
  ∃ report w1 w2,
    delete 0 Demo.saved_world = (Ok (Some report), w1)
    ∧ save 0 w1 = (Ok tt, w2)
    ∧ creds_table w2 = [].
Proof.
  destruct (delete_then_save_restores_nothing Demo.saved_world 0 Demo.saved_creds 1
              "sha256:passworduser")
    as (report & w1 & w2 & Hrun & Hsave & _ & Ht & _);
    [reflexivity|reflexivity|reflexivity| |].
  - repeat constructor; intros [].
  - exists report, w1, w2. split_and!; [exact Hrun|exact Hsave|].
    rewrite Ht. assert (Hw1 : snd (delete 0 Demo.saved_world) = w1) by (by rewrite Hrun).
    rewrite <- Hw1. reflexivity.
Defined.

Lemma delete_raises_after_commit_witness :
  ∃ w', delete 0 Demo.odd_world = (Raise (ExtError "KeyError"), w')
        ∧ creds_table w' = [].
Proof.
  destruct (delete_raises_after_commit Demo.odd_world 0 Demo.odd_creds 3
              (ExtError "KeyError"))
    as (w' & Hrun & Ht & _); [reflexivity|reflexivity|reflexivity|constructor|].
  exists w'. split; [exact Hrun|]. rewrite Ht. reflexivity.
Defined.

Lemma Creds_str_tells_id_witness :
  Creds_str Demo.saved_creds = "#1" ∧ id Demo.saved_creds = Some 1%Z.
Proof.
  split; [reflexivity|].
  apply (proj1 (Creds_str_tells_id Demo.saved_creds Demo.saved_creds)). reflexivity.
Defined.

Lemma construction_confuses_equal_concatenations_witness :
  ∃ self w1 c,
    @Creds_call Demo.two_kinds "password" "x:1" Demo.empty_world = (Ok self, w1)
    ∧ @Creds_call Demo.two_kinds "pass" "wordx:2" w1 = (Ok self, w1)
    ∧ heap w1 !! self = Some c
    ∧ credsType c = "password".
Proof.
  destruct (@construction_confuses_equal_concatenations Demo.two_kinds Demo.empty_world
              "password" "x:1" "pass" "wordx:2"
              {| identifier := "x" |} {| identifier := "wordx" |})
    as (self & w1 & c & Hcall1 & _ & Hcall2 & Hc & Ht & _); [reflexivity..|].
  exists self, w1, c. split_and!; [exact Hcall1|exact Hcall2|exact Hc|exact Ht].
Defined.

Lemma edit_saved_rewrites_own_row_witness :
  ∃ w', edit Demo.rename_to_root 0 Demo.two_rows_world = (Ok tt, w')
        ∧ row_id <$> creds_table w' = [1%Z; 2%Z].
Proof.
  destruct (edit_saved_rewrites_own_row Demo.rename_to_root Demo.two_rows_world 0
              Demo.saved_creds 1 {| identifier := "root" |} "root:hunter2")
    as (w' & Hrun & _ & Hids & _); [reflexivity..|].
  exists w'. split; [exact Hrun|]. rewrite Hids. reflexivity.
Defined.

Lemma edit_can_duplicate_identity_witness :
  ∃ w', edit Demo.rename_to_root 0 Demo.two_rows_world = (Ok tt, w')
        ∧ ¬ NoDup (row_identity <$> creds_table w').
Proof.
  destruct (edit_can_duplicate_identity Demo.rename_to_root Demo.two_rows_world 0
              Demo.saved_creds 1 {| identifier := "root" |} "root:hunter2"
              Demo.user_row Demo.root_row)
    as (w' & Hrun & _ & Hdup);
    [reflexivity|reflexivity|reflexivity|by left|reflexivity|by right; left
    |discriminate|reflexivity|].
  exists w'. split; [exact Hrun|exact Hdup].
Defined.
